(** * halomod: the [HaloModel] class of [halomod/halo_model.py]

    A shallow embedding of the halo-model driver: parameter validators,
    the derived quantities declared with [@cached_property], the
    minimum-mass solver [_find_m_min], [update] / [__init__], and the
    projection integrator [projected_corr_gal].

    Numbers: Python floats and NumPy float arrays are read as real numbers
    ([R]) and lists of reals; [np.log], [np.exp], [np.sqrt] and [**] are
    [ln], [exp], [sqrt] and [Rpower].  Rounding is not modelled.

    Objects: a [HaloModel] instance is a record of its parameters together
    with the set of memoised property names, living in a store of objects
    addressed by location, so that [deepcopy] and in-place parameter
    updates can be told apart. *)

From Stdlib Require Import Reals Lra Lia List String ZArith.
From stdpp Require Import base option gmap strings.
Import ListNotations.

Local Open Scope string_scope.
Local Open Scope R_scope.

(** ** Python values, exceptions, fallible results *)

(** The dynamically typed values a caller can hand to a parameter setter.
    The module is Python 2 code ([basestring], line 109), so byte strings
    ([str]) and [unicode] strings are different types. *)
Inductive pyval :=
| PyNone
| PyBool (b : bool)
| PyInt (z : Z)
| PyFloat (x : R)
| PyStr (s : string)
| PyUnicode (s : string)
| PyObject (id : nat).

Inductive exn :=
| ValueError (msg : string) (val : pyval)   (* raised by the setters below *)
| ShapeError                                (* NumPy: operands could not be broadcast *)
| IndexError                                (* index out of bounds *)
| NGException (achieved : R)                (* line 403 / 432: carries str(integral) *)
| ExternalError (tag : string).             (* raised outside this module *)

Inductive result (A : Type) :=
| Ok (a : A)
| Raise (e : exn).
Arguments Ok {A} a.
Arguments Raise {A} e.

Definition rbind {A B} (m : result A) (k : A -> result B) : result B :=
  match m with
  | Ok a => k a
  | Raise e => Raise e
  end.

Declare Scope result_scope.
Delimit Scope result_scope with res.
Notation "'let?' x := m 'in' k" := (rbind m (fun x => k))
  (at level 10, x name, m at level 100, k at level 200) : result_scope.
Local Open Scope result_scope.

(** What a collaborator returns: a value, or the tag of the exception it
    raised.  A collaborator cannot raise this module's [NGException]. *)
Definition external (A : Type) : Type := (A + string)%type.

Definition ext {A} (x : external A) : result A :=
  match x with
  | inl a => Ok a
  | inr tag => Raise (ExternalError tag)
  end.

Definition is_Ok {A} (m : result A) : Prop :=
  match m with Ok _ => True | Raise _ => False end.

Definition is_NGException (e : exn) : bool :=
  match e with NGException _ => true | _ => false end.

(** ** NumPy / SciPy array helpers *)

Definition array := list R.

(** [a op b] on one-dimensional arrays: elementwise on equal shapes, a
    length-one operand is broadcast, anything else raises. *)
Fixpoint zip_with (f : R -> R -> R) (a b : array) : array :=
  match a, b with
  | x :: a', y :: b' => f x y :: zip_with f a' b'
  | _, _ => []
  end.

Definition np_binop (f : R -> R -> R) (a b : array) : result array :=
  if Nat.eqb (length a) (length b) then Ok (zip_with f a b)
  else match a, b with
       | [x], _ => Ok (map (f x) b)
       | _, [y] => Ok (map (fun x => f x y) a)
       | _, _ => Raise ShapeError
       end.

Definition np_add := np_binop Rplus.
Definition np_mul := np_binop Rmult.

(** [a[i]] for a non-negative index, and [a[-1]]. *)
Definition getitem (a : array) (i : nat) : result R :=
  match nth_error a i with
  | Some x => Ok x
  | None => Raise IndexError
  end.

Definition getlast (a : array) : result R :=
  match a with
  | [] => Raise IndexError
  | x :: a' => Ok (List.last a' x)
  end.

(** [a[lo:hi]] for non-negative bounds: out-of-range bounds are clipped. *)
Definition py_slice (lo hi : nat) (a : array) : array :=
  firstn (hi - lo) (skipn lo a).

(** [a[::-1]] and [a[1:]]. *)
Definition reversed (a : array) : array := rev a.
Definition tail1 (a : array) : array := skipn 1 a.

(** [np.linspace(a, b, n)], [np.logspace(a, b, n)], [np.arange(a, b, step)].
    [arange] is NumPy's for a step other than zero (a zero step makes
    NumPy raise); statements that read the mass grid say so. *)
Definition linspace (a b : R) (n : nat) : array :=
  map (fun i => a + INR i * ((b - a) / INR (n - 1))) (seq 0 n).

Definition logspace (a b : R) (n : nat) : array :=
  map (Rpower 10) (linspace a b n).

Definition arange (start stop step : R) : array :=
  map (fun i => start + INR i * step)
      (seq 0 (Z.to_nat (Zceil ((stop - start) / step)))).

Definition log10 (x : R) : R := ln x / ln 10.

(** [scipy.integrate.cumtrapz(y, dx=dx)]: the running sums of
    [dx * (y[i+1] + y[i]) / 2]. *)
Fixpoint cumtrapz_from (acc : R) (y : array) (dx : R) : array :=
  match y with
  | a :: ((b :: _) as t) =>
      let acc' := acc + dx * (b + a) / 2 in
      acc' :: cumtrapz_from acc' t dx
  | _ => []
  end.

Definition cumtrapz (y : array) (dx : R) : array := cumtrapz_from 0 y dx.

(** [np.where(a > t)[0][0]]: the first index whose entry exceeds [t]. *)
Fixpoint first_index_gt (a : array) (t : R) : result nat :=
  match a with
  | [] => Raise IndexError
  | x :: a' =>
      if Rgt_dec x t then Ok O
      else let? i := first_index_gt a' t in Ok (S i)
  end.

(** [a[mask]] with [mask = (c > 0)]: keep the entries of [a] where the
    entry of [c] at the same position is positive. *)
Fixpoint mask_pos (c a : array) : array :=
  match c, a with
  | x :: c', y :: a' =>
      if Rgt_dec x 0 then y :: mask_pos c' a' else mask_pos c' a'
  | _, _ => []
  end.

(** ** Parameter setters (the [@parameter] methods, lines 96-178)

    A setter receives the value being assigned and returns the value that
    is stored, or raises.  It runs when the attribute is assigned. *)

Module Param.

(** [val in available] for a list of byte strings: a [str] or [unicode]
    with the same text compares equal, any other value compares unequal. *)
Definition py_in (val : pyval) (available : list string) : bool :=
  match val with
  | PyStr s | PyUnicode s => existsb (String.eqb s) available
  | _ => false
  end.

Definition isinstance_str (val : pyval) : bool :=
  match val with PyStr _ => true | _ => false end.

(** Python truth value of [val]. *)
Definition truthy (val : pyval) : bool :=
  match val with
  | PyNone => false
  | PyBool b => b
  | PyInt z => negb (Z.eqb z 0)
  | PyFloat x => if Req_dec_T x 0 then false else true
  | PyStr s | PyUnicode s => negb (String.eqb s "")
  | PyObject _ => true
  end.

Definition ng (val : option R) : result (option R) := Ok val.

Definition hod_params (val : gmap string R) : result (gmap string R) := Ok val.

(** Lines 119-127.  Testing a [pyval] for truth never raises, so the
    [except] branch is not reached. *)
Definition nonlinear (val : pyval) : result bool :=
  if truthy val then Ok true else Ok false.

Definition halo_profile {A} (val : A) : result A := Ok val.

Definition cm_relation_available : list string :=
  ["duffy"; "zehavi"; "bullock_rescaled"].

Definition cm_relation (val : pyval) : result pyval :=
  if negb (py_in val cm_relation_available) then
    if isinstance_str val
    then Raise (ValueError "cm_relation not acceptable: " val)
    else Ok val
  else Ok val.

Definition bias_model (val : pyval) : result pyval := Ok val.

Definition halo_exclusion_available : list string :=
  ["None"; "sphere"; "ellipsoid"; "ng_matched"; "schneider"].

Definition halo_exclusion (val : pyval) : result pyval :=
  let val := match val with PyNone => PyStr "None" | _ => val end in
  if negb (py_in val halo_exclusion_available)
  then Raise (ValueError "halo_exclusion not acceptable: " val)
  else Ok val.

Definition rmin (val : R) : result R := Ok val.
Definition rmax (val : R) : result R := Ok val.
Definition rnum (val : nat) : result nat := Ok val.

Definition scale_dependent_bias (val : pyval) : result bool :=
  if truthy val then Ok true else Ok false.

End Param.

(** ** Collaborators

    The occupation model, the halo profile, the interpolating spline and
    the optimizer's outcome, as the driver sees them. *)

Definition matrix := list (list R).

(** An instance of a [hod.HOD] subclass. *)
Record HOD := {
  mmin : R;
  sharp_cut : bool;
  _central : bool;
  nc : array -> array;
  ns : array -> array;
  ntot : array -> array
}.

(** A class of occupation models: called with the keyword dictionary
    [hod_params] it builds an instance.  The [hod_model] setter (line 106)
    only accepts subclasses of [hod.HOD]; here that is the type of the
    parameter. *)
Definition hod_class := gmap string R -> HOD.

(** A halo profile object ([norm='m'] is fixed by every caller here). *)
Record Profile := {
  has_lam : bool;
  rho : array -> array -> matrix;
  lam : array -> array -> matrix;
  u : array -> array -> matrix
}.

(** The [halo_profile] parameter: an identifier handed to [get_profile],
    or an object that already has a [rho] attribute. *)
Inductive profile_arg :=
| ProfileId (name : pyval)
| ProfileObj (p : Profile).

(** [scipy.interpolate.InterpolatedUnivariateSpline]: the fitted object can
    be called and asked for its derivatives at a point. *)
Record Spline := {
  spl_call : R -> R;
  spl_derivatives : R -> array
}.

(** [scipy.optimize.OptimizeResult]. *)
Record OptimizeResult := {
  res_x : array;
  res_success : bool;
  res_nit : nat
}.

(** Everything the module imports and does not define: the [hmf] mass
    function (its own parameters are kept abstract), [profiles], [bias],
    [tools], the Fortran kernels, the two-halo wrapper and the SciPy
    routines whose numerics are not described by the driver. *)
Class Externals := {
  hmf_params : Type;
  hmf_kwargs : Type;
  (** [MassFunction.update] restricted to the mass function's own keywords *)
  hmf_update : hmf_kwargs -> hmf_params -> external hmf_params;
  (** [dndm] on the mass grid [M]; [power], [nonlinear_power], [lnk] *)
  hmf_dndm : hmf_params -> array -> array;
  hmf_power : hmf_params -> array;
  hmf_nonlinear_power : hmf_params -> array;
  hmf_lnk : hmf_params -> array;
  hmf_mean_dens : hmf_params -> R;
  hmf_delta_halo : hmf_params -> R;
  (** [hmf._cache]: the entries a read of a property fills besides its
      own, and the entries dropped when a parameter is replaced *)
  cache_pulled : string -> gset string;
  cache_dependents : string -> gset string;
  (** [profiles.get_profile(name, delta_halo, cm_relation=, z=, truncate=True,
      omegam=, omegav=)] *)
  get_profile : pyval -> R -> pyval -> hmf_params -> external Profile;
  (** [bias_model(self)] and [get_bias(bias_model)(self)] *)
  call_bias_model : pyval -> hmf_params -> array -> external array;
  get_bias : pyval -> hmf_params -> array -> external array;
  (** [tools.power_to_corr_ogata(power, lnk, r)] *)
  power_to_corr_ogata : array -> array -> array -> array;
  (** [fort.power_gal_1h_ss(nlnk, nm, u, dndm, nsat, ncen, mass, central)] *)
  fort_power_gal_1h_ss :
    nat -> nat -> matrix -> array -> array -> array -> array -> bool -> array;
  (** [fort.corr_gal_1h_cs(nr, nm, r, mass, dndm, ncen, nsat, rho, mean_dens,
      delta_halo)] *)
  fort_corr_gal_1h_cs :
    nat -> nat -> array -> array -> array -> array -> array -> matrix ->
    R -> R -> array;
  (** [fort.corr_gal_1h(nr, nm, r, mass, dndm, ncen, nsat, rho, lam, central,
      mean_dens, delta_halo)] *)
  fort_corr_gal_1h :
    nat -> nat -> array -> array -> array -> array -> array -> matrix ->
    matrix -> bool -> R -> R -> array;
  (** [twohalo_wrapper(halo_exclusion, scale_dependent_bias, M, bias, n_tot,
      dndm, lnk, exp(matter_power), u, r, dm_corr, mean_gal_den, delta_halo,
      mean_dens, nthreads_2halo)] *)
  thalo :
    pyval -> bool -> array -> array -> array -> array -> array -> array ->
    matrix -> array -> array -> R -> R -> R -> Z -> array;
  (** [intg.simps(y, dx=dx, even=even)] and [intg.simps(y, x)] *)
  simps_dx : array -> R -> string -> R;
  simps_x : array -> array -> R;
  (** [spline(x, y, k=k)] *)
  spline : array -> array -> nat -> external Spline;
  (** [minimize(fun, x0, tol=tol, method=method, options={"maxiter": n})]:
      the points at which the objective was called, in call order, and
      the outcome when none of these calls raised *)
  minimize :
    (R -> result R) -> R -> R -> string -> nat ->
    list R * external OptimizeResult
}.

(** ** The parameters of a [HaloModel] instance *)

Section Model.
Context {E : Externals}.

Record HaloModel := {
  hmf : hmf_params;          (* the parameters of the MassFunction base class *)
  dlog10m : R;               (* a MassFunction parameter read by [M] *)
  ng : option R;
  hod_params : gmap string R;
  hod_model : hod_class;
  halo_profile : profile_arg;
  cm_relation : pyval;
  bias_model : pyval;
  rmin : R;
  rmax : R;
  rnum : nat;
  nonlinear : bool;
  halo_exclusion : pyval;
  scale_dependent_bias : bool;
  nthreads_2halo : Z
}.

(** Class attribute [rlog = True] (line 38). *)
Definition rlog : bool := true.

(** ** Derived quantities (the [@cached_property] methods)

    Each is the function its body computes from the parameters; reading
    one through the cache is modelled further down. *)

(* line 182.  [np.log] is [ln] on positive numbers only: this is the grid
   for positive [rmin] and [rmax], and statements about its values say so. *)
Definition r (p : HaloModel) : array :=
  if rlog then map exp (linspace (ln (rmin p)) (ln (rmax p)) (rnum p))
  else linspace (rmin p) (rmax p) (rnum p).

(* line 189 *)
Definition hod (p : HaloModel) : HOD := hod_model p (hod_params p).

(* line 193 *)
Definition M (p : HaloModel) : array :=
  map (Rpower 10) (arange (mmin (hod p)) 18 (dlog10m p)).

(* lines 197-210 *)
Definition n_sat (p : HaloModel) : array := ns (hod p) (M p).
Definition n_cen (p : HaloModel) : array := nc (hod p) (M p).
Definition n_tot (p : HaloModel) : array := ntot (hod p) (M p).

(* line 212: try the model as a callable, fall back to the registry *)
Definition bias (p : HaloModel) : result array :=
  match call_bias_model (bias_model p) (hmf p) (M p) with
  | inl b => Ok b
  | inr _ => ext (get_bias (bias_model p) (hmf p) (M p))
  end.

(* line 220 *)
Definition profile (p : HaloModel) : result Profile :=
  match halo_profile p with
  | ProfileObj o => Ok o
  | ProfileId name =>
      ext (get_profile name (hmf_delta_halo (hmf p)) (cm_relation p) (hmf p))
  end.

Definition dndm (p : HaloModel) : array := hmf_dndm (hmf p) (M p).
Definition lnk (p : HaloModel) : array := hmf_lnk (hmf p).
Definition mean_dens (p : HaloModel) : R := hmf_mean_dens (hmf p).
Definition delta_halo (p : HaloModel) : R := hmf_delta_halo (hmf p).

(* line 234 *)
Definition n_gal (p : HaloModel) : result array := np_mul (dndm p) (n_tot p).

(** [np.log(self.M[1]) - np.log(self.M[0])] *)
Definition dlnM (p : HaloModel) : result R :=
  let? m1 := getitem (M p) 1 in
  let? m0 := getitem (M p) 0 in
  Ok (ln m1 - ln m0).

(** [self.M * self.dndm * w] for an occupation array [w] *)
Definition mass_weighted (p : HaloModel) (w : array) : result array :=
  let? md := np_mul (M p) (dndm p) in
  np_mul md w.

(* line 241 *)
Definition mean_gal_den (p : HaloModel) : result R :=
  match ng p with
  | Some g => Ok g
  | None =>
      let? integrand := mass_weighted p (n_tot p) in
      let? dx := dlnM p in
      Ok (simps_dx integrand dx "first")
  end.

(* line 255 *)
Definition bias_effective (p : HaloModel) : result R :=
  let? mdn := mass_weighted p (n_tot p) in
  let? bs := bias p in
  let? integrand := np_mul mdn bs in
  let? dx := dlnM p in
  let b := simps_dx integrand dx "avg" in
  let? d := mean_gal_den p in
  Ok (b / d).

(* line 266 *)
Definition mass_effective (p : HaloModel) : result R :=
  let? m2d := np_mul (map (fun m => m ^ 2) (M p)) (dndm p) in
  let? integrand := np_mul m2d (n_tot p) in
  let? dx := dlnM p in
  let m := simps_dx integrand dx "avg" in
  let? d := mean_gal_den p in
  Ok (log10 (m / d)).

(* line 277 *)
Definition satellite_fraction (p : HaloModel) : result R :=
  let? integrand := mass_weighted p (n_sat p) in
  let? dx := dlnM p in
  let s := simps_dx integrand dx "avg" in
  let? d := mean_gal_den p in
  Ok (s / d).

(* line 284 *)
Definition central_fraction (p : HaloModel) : result R :=
  let? s := satellite_fraction p in
  Ok (1 - s).

(* line 288 *)
Definition matter_power (p : HaloModel) : array :=
  if nonlinear p then hmf_nonlinear_power (hmf p) else hmf_power (hmf p).

(* line 299 *)
Definition dm_corr (p : HaloModel) : array :=
  power_to_corr_ogata (map exp (matter_power p)) (lnk p) (r p).

(** [a / d ** 2] for an array [a] and a scalar [d] *)
Definition over_square (a : array) (d : R) : array :=
  map (fun v => v / d ^ 2) a.

(* line 307 *)
Definition _power_gal_1h_ss (p : HaloModel) : result array :=
  let? prof := profile p in
  let uu := u prof (map exp (lnk p)) (M p) in
  let pw := fort_power_gal_1h_ss (length (lnk p)) (length (M p)) uu (dndm p)
              (n_sat p) (n_cen p) (M p) (_central (hod p)) in
  let? d := mean_gal_den p in
  Ok (over_square pw d).

(* line 323 *)
Definition _corr_gal_1h_ss (p : HaloModel) : result array :=
  let? pw := _power_gal_1h_ss p in
  Ok (power_to_corr_ogata pw (lnk p) (r p)).

(* line 328 *)
Definition _corr_gal_1h_cs (p : HaloModel) : result array :=
  let? prof := profile p in
  let rh := rho prof (r p) (M p) in
  let c := fort_corr_gal_1h_cs (length (r p)) (length (M p)) (r p) (M p)
             (dndm p) (n_cen p) (n_sat p) rh (mean_dens p) (delta_halo p) in
  let? d := mean_gal_den p in
  Ok (over_square c d).

(* line 344 *)
Definition corr_gal_1h (p : HaloModel) : result array :=
  let? prof := profile p in
  if has_lam prof then
    let rh := rho prof (r p) (M p) in
    let lm := lam prof (r p) (M p) in
    let c := fort_corr_gal_1h (length (r p)) (length (M p)) (r p) (M p)
               (dndm p) (n_cen p) (n_sat p) rh lm (_central (hod p))
               (mean_dens p) (delta_halo p) in
    let? d := mean_gal_den p in
    Ok (over_square c d)
  else
    let? cs := _corr_gal_1h_cs p in
    let? ss := _corr_gal_1h_ss p in
    np_add cs ss.

(* line 369 *)
Definition corr_gal_2h (p : HaloModel) : result array :=
  let? prof := profile p in
  let uu := u prof (map exp (lnk p)) (M p) in
  let? bs := bias p in
  let? d := mean_gal_den p in
  Ok (thalo (halo_exclusion p) (scale_dependent_bias p) (M p) bs (n_tot p)
        (dndm p) (lnk p) (map exp (matter_power p)) uu (r p) (dm_corr p)
        d (delta_halo p) (mean_dens p) (nthreads_2halo p)).

(* line 382 *)
Definition corr_gal (p : HaloModel) : result array :=
  let? c1 := corr_gal_1h p in
  let? c2 := corr_gal_2h p in
  np_add c1 c2.

End Model.

(** ** Objects, the store, and the monad of methods *)

Section Objects.
Context {E : Externals}.

(** Attribute assignment on the parameter record. *)
Definition with_hmf (v : hmf_params) (p : HaloModel) : HaloModel :=
  Build_HaloModel v (dlog10m p) (ng p) (hod_params p) (hod_model p)
    (halo_profile p) (cm_relation p) (bias_model p) (rmin p) (rmax p) (rnum p)
    (nonlinear p) (halo_exclusion p) (scale_dependent_bias p) (nthreads_2halo p).
Definition with_dlog10m (v : R) (p : HaloModel) : HaloModel :=
  Build_HaloModel (hmf p) v (ng p) (hod_params p) (hod_model p)
    (halo_profile p) (cm_relation p) (bias_model p) (rmin p) (rmax p) (rnum p)
    (nonlinear p) (halo_exclusion p) (scale_dependent_bias p) (nthreads_2halo p).
Definition with_ng (v : option R) (p : HaloModel) : HaloModel :=
  Build_HaloModel (hmf p) (dlog10m p) v (hod_params p) (hod_model p)
    (halo_profile p) (cm_relation p) (bias_model p) (rmin p) (rmax p) (rnum p)
    (nonlinear p) (halo_exclusion p) (scale_dependent_bias p) (nthreads_2halo p).
Definition with_hod_params (v : gmap string R) (p : HaloModel) : HaloModel :=
  Build_HaloModel (hmf p) (dlog10m p) (ng p) v (hod_model p)
    (halo_profile p) (cm_relation p) (bias_model p) (rmin p) (rmax p) (rnum p)
    (nonlinear p) (halo_exclusion p) (scale_dependent_bias p) (nthreads_2halo p).
Definition with_hod_model (v : hod_class) (p : HaloModel) : HaloModel :=
  Build_HaloModel (hmf p) (dlog10m p) (ng p) (hod_params p) v
    (halo_profile p) (cm_relation p) (bias_model p) (rmin p) (rmax p) (rnum p)
    (nonlinear p) (halo_exclusion p) (scale_dependent_bias p) (nthreads_2halo p).
Definition with_halo_profile (v : profile_arg) (p : HaloModel) : HaloModel :=
  Build_HaloModel (hmf p) (dlog10m p) (ng p) (hod_params p) (hod_model p)
    v (cm_relation p) (bias_model p) (rmin p) (rmax p) (rnum p)
    (nonlinear p) (halo_exclusion p) (scale_dependent_bias p) (nthreads_2halo p).
Definition with_cm_relation (v : pyval) (p : HaloModel) : HaloModel :=
  Build_HaloModel (hmf p) (dlog10m p) (ng p) (hod_params p) (hod_model p)
    (halo_profile p) v (bias_model p) (rmin p) (rmax p) (rnum p)
    (nonlinear p) (halo_exclusion p) (scale_dependent_bias p) (nthreads_2halo p).
Definition with_bias_model (v : pyval) (p : HaloModel) : HaloModel :=
  Build_HaloModel (hmf p) (dlog10m p) (ng p) (hod_params p) (hod_model p)
    (halo_profile p) (cm_relation p) v (rmin p) (rmax p) (rnum p)
    (nonlinear p) (halo_exclusion p) (scale_dependent_bias p) (nthreads_2halo p).
Definition with_rmin (v : R) (p : HaloModel) : HaloModel :=
  Build_HaloModel (hmf p) (dlog10m p) (ng p) (hod_params p) (hod_model p)
    (halo_profile p) (cm_relation p) (bias_model p) v (rmax p) (rnum p)
    (nonlinear p) (halo_exclusion p) (scale_dependent_bias p) (nthreads_2halo p).
Definition with_rmax (v : R) (p : HaloModel) : HaloModel :=
  Build_HaloModel (hmf p) (dlog10m p) (ng p) (hod_params p) (hod_model p)
    (halo_profile p) (cm_relation p) (bias_model p) (rmin p) v (rnum p)
    (nonlinear p) (halo_exclusion p) (scale_dependent_bias p) (nthreads_2halo p).
Definition with_rnum (v : nat) (p : HaloModel) : HaloModel :=
  Build_HaloModel (hmf p) (dlog10m p) (ng p) (hod_params p) (hod_model p)
    (halo_profile p) (cm_relation p) (bias_model p) (rmin p) (rmax p) v
    (nonlinear p) (halo_exclusion p) (scale_dependent_bias p) (nthreads_2halo p).
Definition with_nonlinear (v : bool) (p : HaloModel) : HaloModel :=
  Build_HaloModel (hmf p) (dlog10m p) (ng p) (hod_params p) (hod_model p)
    (halo_profile p) (cm_relation p) (bias_model p) (rmin p) (rmax p) (rnum p)
    v (halo_exclusion p) (scale_dependent_bias p) (nthreads_2halo p).
Definition with_halo_exclusion (v : pyval) (p : HaloModel) : HaloModel :=
  Build_HaloModel (hmf p) (dlog10m p) (ng p) (hod_params p) (hod_model p)
    (halo_profile p) (cm_relation p) (bias_model p) (rmin p) (rmax p) (rnum p)
    (nonlinear p) v (scale_dependent_bias p) (nthreads_2halo p).
Definition with_scale_dependent_bias (v : bool) (p : HaloModel) : HaloModel :=
  Build_HaloModel (hmf p) (dlog10m p) (ng p) (hod_params p) (hod_model p)
    (halo_profile p) (cm_relation p) (bias_model p) (rmin p) (rmax p) (rnum p)
    (nonlinear p) (halo_exclusion p) v (nthreads_2halo p).

(** An object: its parameters and the names of the properties whose value
    is currently memoised in its cache. *)
Record instance := {
  params : HaloModel;
  memo : gset string
}.

(** Objects are addressed by location; the store maps the locations in use
    to objects. *)
Abbreviation loc := positive (only parsing).
Abbreviation store := (gmap positive instance) (only parsing).

(** A method: runs on the store, returns or raises, leaves a store. *)
Definition Py (A : Type) : Type := store -> result A * store.

Definition ret {A} (a : A) : Py A := fun s => (Ok a, s).
Definition raise {A} (e : exn) : Py A := fun s => (Raise e, s).
Definition lift {A} (m : result A) : Py A := fun s => (m, s).
Definition bind {A B} (m : Py A) (k : A -> Py B) : Py B :=
  fun s => match m s with
           | (Ok a, s') => k a s'
           | (Raise e, s') => (Raise e, s')
           end.

Notation "x <~ m ;; k" := (bind m (fun x => k))
  (at level 100, m at next level, right associativity).
Notation "m ;;; k" := (bind m (fun _ => k))
  (at level 100, right associativity).

Definition get_params (l : loc) : Py HaloModel :=
  fun s => match s !! l with
           | Some i => (Ok (params i), s)
           | None => (Raise (ExternalError "no such object"), s)
           end.

Definition modify (l : loc) (f : instance -> instance) : Py unit :=
  fun s => match s !! l with
           | Some i => (Ok tt, <[l := f i]> s)
           | None => (Raise (ExternalError "no such object"), s)
           end.

(** Reading the cached property [name] of the object at [l]: the value is
    the one its body computes from the parameters; on success the entry
    and the entries it pulled in are memoised. *)
Definition prop {A} (name : string) (body : HaloModel -> result A)
    (l : loc) : Py A :=
  p <~ get_params l ;;
  v <~ lift (body p) ;;
  modify l (fun i => {| params := params i;
                        memo := memo i ∪ {[name]} ∪ cache_pulled name |}) ;;;
  ret v.

Definition total {A} (f : HaloModel -> A) : HaloModel -> result A :=
  fun p => Ok (f p).

(** Assigning the parameter [name]: the stored value changes and the
    cache entries that depend on it are dropped. *)
Definition setattr (name : string) (f : HaloModel -> HaloModel)
    (l : loc) : Py unit :=
  modify l (fun i => {| params := f (params i);
                        memo := memo i ∖ cache_dependents name |}).

(** [deepcopy(self)]: a new object with the same parameters and cache. *)
Definition deepcopy (l : loc) : Py loc :=
  fun s => match s !! l with
           | Some i => let c := fresh (dom s) in (Ok c, <[c := i]> s)
           | None => (Raise (ExternalError "no such object"), s)
           end.

Fixpoint for_each {A} (f : A -> Py unit) (xs : list A) : Py unit :=
  match xs with
  | [] => ret tt
  | x :: xs' => f x ;;; for_each f xs'
  end.

(** ** [update] and the minimum-mass solver *)

(** The keyword arguments of [update]: a keyword is present or absent.
    [kw_ng = Some None] is [ng=None]; [kw_hmf] are the keywords that belong
    to the mass function. *)
Record kwargs := {
  kw_ng : option (option R);
  kw_hod_params : option (gmap string R);
  kw_hod_model : option hod_class;
  kw_halo_profile : option profile_arg;
  kw_cm_relation : option pyval;
  kw_bias_model : option pyval;
  kw_rmin : option R;
  kw_rmax : option R;
  kw_rnum : option nat;
  kw_nonlinear : option pyval;
  kw_halo_exclusion : option pyval;
  kw_scale_dependent_bias : option pyval;
  kw_dlog10m : option R;
  kw_hmf : option hmf_kwargs
}.

Definition no_kwargs : kwargs :=
  Build_kwargs None None None None None None None None None None None None
    None None.

(** [update(hod_params=hp)] and [update(hod_params=hp, dlog10m=d)]. *)
Definition kw_hod (hp : gmap string R) : kwargs :=
  Build_kwargs None (Some hp) None None None None None None None None None
    None None None.
Definition kw_hod_dlog10m (hp : gmap string R) (d : R) : kwargs :=
  Build_kwargs None (Some hp) None None None None None None None None None
    None (Some d) None.

(** One keyword of [update]: absent, or assigned through its setter. *)
Definition assign {A B} (o : option A) (setter : A -> result B)
    (name : string) (w : B -> HaloModel -> HaloModel) (l : loc) : Py unit :=
  match o with
  | None => ret tt
  | Some a => v <~ lift (setter a) ;; setattr name (w v) l
  end.

(** The base-class [update] called at line 87: every keyword that is left
    is assigned to the attribute of the same name ([ng] was popped).  The
    keywords of a call are taken in the order of the constructor's
    signature; the first setter that raises ends the call. *)
Definition super_update (l : loc) (kw : kwargs) : Py unit :=
  assign (kw_hod_params kw) Param.hod_params "hod_params" with_hod_params l ;;;
  assign (kw_hod_model kw) Ok "hod_model" with_hod_model l ;;;
  assign (kw_halo_profile kw) Param.halo_profile "halo_profile"
    with_halo_profile l ;;;
  assign (kw_cm_relation kw) Param.cm_relation "cm_relation"
    with_cm_relation l ;;;
  assign (kw_bias_model kw) Param.bias_model "bias_model" with_bias_model l ;;;
  assign (kw_rmin kw) Param.rmin "rmin" with_rmin l ;;;
  assign (kw_rmax kw) Param.rmax "rmax" with_rmax l ;;;
  assign (kw_rnum kw) Param.rnum "rnum" with_rnum l ;;;
  assign (kw_nonlinear kw) Param.nonlinear "nonlinear" with_nonlinear l ;;;
  assign (kw_halo_exclusion kw) Param.halo_exclusion "halo_exclusion"
    with_halo_exclusion l ;;;
  assign (kw_scale_dependent_bias kw) Param.scale_dependent_bias
    "scale_dependent_bias" with_scale_dependent_bias l ;;;
  assign (kw_dlog10m kw) Ok "dlog10m" with_dlog10m l ;;;
  match kw_hmf kw with
  | None => ret tt
  | Some k =>
      p <~ get_params l ;;
      h <~ lift (ext (hmf_update k (hmf p))) ;;
      setattr "hmf" (with_hmf h) l
  end.

(** [update] (line 77), with the solver it calls at the end passed in:
    [update] and [_find_m_min] call each other. *)
Definition update_with (solver : loc -> R -> Py R) (self : loc)
    (kw : kwargs) : Py unit :=
  match kw_ng kw with
  | Some v => setattr "ng" (with_ng v) self
  | None =>
      match kw_hod_params kw with
      | Some hp =>
          match hp !! "M_min" with
          | Some _ => setattr "ng" (with_ng None) self
          | None => ret tt
          end
      | None => ret tt
      end
  end ;;;
  super_update self kw ;;;
  p <~ get_params self ;;
  match ng p with
  | Some g =>
      mmin <~ solver self g ;;
      setattr "hod_params" (with_hod_params {["M_min" := mmin]}) self
  | None => ret tt
  end.

(** [max(ind - 4, 0)] and [min(ind + 4, len(c.M))] (lines 422-423). *)
Definition window_lo (ind : nat) : nat :=
  Z.to_nat (Z.max (Z.of_nat ind - 4) 0).
Definition window_hi (ind n : nat) : nat :=
  Z.to_nat (Z.min (Z.of_nat ind + 4) (Z.of_nat n)).

(** Lines 400-427: the sharp-cutoff branch, from [c.M] and the integrand. *)
Definition sharp_cut_mmin (cM integrand : array) (ng : R) : result R :=
  let? m1 := getitem cM 1 in
  let? m0 := getitem cM 0 in
  let integral := cumtrapz (reversed integrand) (ln m1 - ln m0) in
  let? top := getlast integral in
  if Rlt_dec top ng then Raise (NGException top)
  else
    let? ind := first_index_gt integral ng in
    let m := py_slice (window_lo ind) (window_hi ind (length cM))
               (tail1 (reversed cM)) in
    let integral := py_slice (window_lo ind) (window_hi ind (length cM))
                      integral in
    let? spline_int := ext (spline (map ln integral) (map ln m) 3) in
    Ok (spl_call spline_int (ln ng) / ln 10).

(** Lines 430-432: the density at the lowest minimum mass, smooth branch. *)
Definition smooth_max_density (cM integrand : array) : result R :=
  let? m1 := getitem cM 1 in
  let? m0 := getitem cM 0 in
  Ok (simps_dx integrand (ln m1 - ln m0) "avg").

(** Lines 434-438: the objective [model], a closure over the copy [c]. It
    updates [c] in place and returns the distance to the target. *)
Definition model (upd : loc -> kwargs -> Py unit) (c : loc) (ng mmin : R)
    : Py R :=
  upd c (kw_hod {["M_min" := mmin]}) ;;;
  cM <~ prop "M" (total M) c ;;
  cdndm <~ prop "dndm" (total dndm) c ;;
  md <~ lift (np_mul cM cdndm) ;;
  cntot <~ prop "n_tot" (total n_tot) c ;;
  integrand <~ lift (np_mul md cntot) ;;
  m1 <~ lift (getitem cM 1) ;;
  m0 <~ lift (getitem cM 0) ;;
  ret (Rabs (simps_dx integrand (ln m1 - ln m0) "avg" - ng)).

(** What [model(mmin)] returns when [c] holds the parameters [cp]. *)
Definition model_value (cp : HaloModel) (ng mmin : R) : result R :=
  let cp' := with_hod_params {["M_min" := mmin]} (with_ng None cp) in
  let? integrand := mass_weighted cp' (n_tot cp') in
  let? dx := dlnM cp' in
  Ok (Rabs (simps_dx integrand dx "avg" - ng)).

(** [_find_m_min] (line 387).  [fuel] bounds the depth of the mutual
    recursion with [update], as the interpreter's recursion limit does.
    The optimizer is handed the objective as a function of [mmin]; the
    objective's writes to [c] are replayed in call order. *)
Fixpoint _find_m_min (fuel : nat) (self : loc) (ng : R) : Py R :=
  match fuel with
  | O => raise (ExternalError "maximum recursion depth exceeded")
  | S fuel' =>
      prop "power" (total (fun p => hmf_power (hmf p))) self ;;;
      c <~ deepcopy self ;;
      update_with (_find_m_min fuel') c
        (kw_hod_dlog10m {["M_min" := 8]} (1 / 100)) ;;;
      cM <~ prop "M" (total M) c ;;
      cdndm <~ prop "dndm" (total dndm) c ;;
      md <~ lift (np_mul cM cdndm) ;;
      cntot <~ prop "n_tot" (total n_tot) c ;;
      integrand <~ lift (np_mul md cntot) ;;
      h <~ prop "hod" (total hod) self ;;
      if sharp_cut h then
        lift (sharp_cut_mmin cM integrand ng)
      else
        integral <~ lift (smooth_max_density cM integrand) ;;
        if Rlt_dec integral ng then raise (NGException integral)
        else
          cp <~ get_params c ;;
          let '(calls, outcome) :=
            minimize (model_value cp ng) 12 (1 / 1000) "Nelder-Mead" 200 in
          for_each (fun mmin =>
                      model (update_with (_find_m_min fuel')) c ng mmin ;;;
                      ret tt) calls ;;;
          res <~ lift (ext outcome) ;;
          lift (getitem (res_x res) 0)
  end.

Definition recursion_limit : nat := 1000.

Definition find_m_min : loc -> R -> Py R := _find_m_min recursion_limit.

(* line 77 *)
Definition update : loc -> kwargs -> Py unit := update_with find_m_min.

(** ** Construction (line 40) *)

(** The arguments of the constructor.  [a_hmf] and [a_dlog10m] are the
    state the base-class constructor leaves from the remaining keywords. *)
Record init_args := {
  a_rmin : R;
  a_rmax : R;
  a_rnum : nat;
  a_hod_params : gmap string R;
  a_hod_model : hod_class;
  a_halo_profile : profile_arg;
  a_cm_relation : pyval;
  a_bias_model : pyval;
  a_nonlinear : pyval;
  a_scale_dependent_bias : pyval;
  a_halo_exclusion : pyval;
  a_ng : option R;
  a_nthreads_2halo : Z;
  a_hmf : hmf_params;
  a_dlog10m : R
}.

(** Lines 54-69: every argument goes through its setter, in this order. *)
Definition init_params (a : init_args) : result HaloModel :=
  let? hp := Param.hod_params (a_hod_params a) in
  let? prof := Param.halo_profile (a_halo_profile a) in
  let? cm := Param.cm_relation (a_cm_relation a) in
  let? bm := Param.bias_model (a_bias_model a) in
  let? r0 := Param.rmin (a_rmin a) in
  let? r1 := Param.rmax (a_rmax a) in
  let? rn := Param.rnum (a_rnum a) in
  let? nl := Param.nonlinear (a_nonlinear a) in
  let? he := Param.halo_exclusion (a_halo_exclusion a) in
  let? sdb := Param.scale_dependent_bias (a_scale_dependent_bias a) in
  let? g := Param.ng (a_ng a) in
  Ok (Build_HaloModel (a_hmf a) (a_dlog10m a) g hp (a_hod_model a) prof cm
        bm r0 r1 rn nl he sdb (a_nthreads_2halo a)).

Definition alloc (i : instance) : Py loc :=
  fun s => let l := fresh (dom s) in (Ok l, <[l := i]> s).

Definition __init__ (a : init_args) : Py loc :=
  p <~ lift (init_params a) ;;
  self <~ alloc {| params := p; memo := ∅ |} ;;
  match a_ng a with
  | Some g =>
      mmin <~ find_m_min self g ;;
      setattr "hod_params" (with_hod_params {["M_min" := mmin]}) self ;;;
      ret self
  | None => ret self
  end.

(** ** The projection integrator (line 446) *)

(* line 493 *)
Definition _get_slope_frac (a : R) : R :=
  let q := sqrt (5 - 8 * a + 4 * a ^ 2) in
  let frac :=
    Rpower 2 (1 + 2 * a)
    * (7 - 2 * a ^ 3 + 3 * q + a ^ 2 * (9 + q) - a * (13 + 3 * q))
    * Rpower ((1 + q) / (a - 1)) (- 2 * a) in
  frac / ((a - 1) ^ 2 * (-1 + 2 * a + q)).

(** Lines 478-481: the clamped slope and the smallest [y] at [rp]. *)
Definition slope_at (fit : Spline) (rp : R) : result R :=
  let? ydiff := getitem (spl_derivatives fit (ln rp)) 1 in
  Ok (Rmax (13 / 10) (- ydiff)).

Definition min_y_of (a rp : R) : R :=
  _get_slope_frac a * (5 / 1000) ^ 2 * rp.

(** Line 484: the integration grid for [rp]. *)
Definition y_grid (a rp : R) : array :=
  logspace (log10 (min_y_of a rp)) (log10 (Rmax 80 (5 * rp) - rp)) 1000.

(** Lines 487-488: the integrand on a grid [y]. *)
Definition projection_integrand (fit : Spline) (rp : R) (y : array) : array :=
  map (fun yy =>
         exp (spl_call fit (ln (yy + rp))) * (yy + rp)
         / sqrt ((yy + 2 * rp) * yy)) y.

(** The body of the loop at line 476: the value stored in [p[i]]. *)
Definition projected_at (fit : Spline) (rp : R) : result R :=
  let? a := slope_at fit rp in
  let y := y_grid a rp in
  Ok (simps_x (projection_integrand fit rp y) y * 2).

Fixpoint map_result {A B} (f : A -> result B) (xs : list A)
    : result (list B) :=
  match xs with
  | [] => Ok []
  | x :: xs' =>
      let? y := f x in
      let? ys := map_result f xs' in
      Ok (y :: ys)
  end.

(** Line 473: the log-log spline through the positive part of [corr_gal]. *)
Definition loglog_fit (rr cg : array) : result Spline :=
  ext (spline (map ln (mask_pos cg rr)) (map ln (mask_pos cg cg)) 3).

(** The method: it reads the attributes of [self], no copy is made (the
    [deepcopy] at line 465 is commented out). *)
Definition projected_corr_gal (self : loc) : Py array :=
  prop "dndm" (total dndm) self ;;;
  prop "matter_power" (total matter_power) self ;;;
  rr <~ prop "r" (total r) self ;;
  cg <~ prop "corr_gal" corr_gal self ;;
  fit <~ lift (loglog_fit rr cg) ;;
  lift (map_result (projected_at fit) rr).

(** ** What the methods compute, as functions of the parameters

    These describe the runs of the methods above; the theorems relate the
    two. *)

(** The parameters of the working copy after line 395. *)
Definition solver_copy (p : HaloModel) : HaloModel :=
  with_dlog10m (1 / 100) (with_hod_params {["M_min" := 8]} (with_ng None p)).

(** The density integral with the minimum mass pinned at the floor: the
    total of the cumulative trapezoid sum under a sharp cutoff, the Simpson
    integral otherwise. *)
Definition max_density (p : HaloModel) : result R :=
  let cp := solver_copy p in
  let? integrand := mass_weighted cp (n_tot cp) in
  if sharp_cut (hod p) then
    let? dx := dlnM cp in
    getlast (cumtrapz (reversed integrand) dx)
  else smooth_max_density (M cp) integrand.

(** The value [_find_m_min(ng)] returns or the exception it raises. *)
Definition find_m_min_value (p : HaloModel) (ng : R) : result R :=
  let cp := solver_copy p in
  let? integrand := mass_weighted cp (n_tot cp) in
  if sharp_cut (hod p) then sharp_cut_mmin (M cp) integrand ng
  else
    let? integral := smooth_max_density (M cp) integrand in
    if Rlt_dec integral ng then Raise (NGException integral)
    else
      let '(calls, outcome) :=
        minimize (model_value cp ng) 12 (1 / 1000) "Nelder-Mead" 200 in
      let? _ := map_result (model_value cp ng) calls in
      let? res := ext outcome in
      getitem (res_x res) 0.

(** The effect of one keyword, and of all keywords handled by the base
    class, on the parameters. *)
Definition assign_value {A B} (o : option A) (setter : A -> result B)
    (w : B -> HaloModel -> HaloModel) (p : HaloModel) : result HaloModel :=
  match o with
  | None => Ok p
  | Some a => let? v := setter a in Ok (w v p)
  end.

Definition apply_kwargs (kw : kwargs) (p : HaloModel) : result HaloModel :=
  let? p := assign_value (kw_hod_params kw) Param.hod_params with_hod_params p in
  let? p := assign_value (kw_hod_model kw) Ok with_hod_model p in
  let? p := assign_value (kw_halo_profile kw) Param.halo_profile
              with_halo_profile p in
  let? p := assign_value (kw_cm_relation kw) Param.cm_relation
              with_cm_relation p in
  let? p := assign_value (kw_bias_model kw) Param.bias_model with_bias_model p in
  let? p := assign_value (kw_rmin kw) Param.rmin with_rmin p in
  let? p := assign_value (kw_rmax kw) Param.rmax with_rmax p in
  let? p := assign_value (kw_rnum kw) Param.rnum with_rnum p in
  let? p := assign_value (kw_nonlinear kw) Param.nonlinear with_nonlinear p in
  let? p := assign_value (kw_halo_exclusion kw) Param.halo_exclusion
              with_halo_exclusion p in
  let? p := assign_value (kw_scale_dependent_bias kw)
              Param.scale_dependent_bias with_scale_dependent_bias p in
  let? p := assign_value (kw_dlog10m kw) Ok with_dlog10m p in
  match kw_hmf kw with
  | None => Ok p
  | Some k => let? h := ext (hmf_update k (hmf p)) in Ok (with_hmf h p)
  end.

(** The parameters when [update] reaches line 89: [ng] popped and stored,
    or cleared by an explicit [M_min], then the remaining keywords. *)
Definition ng_after (kw : kwargs) (p : HaloModel) : HaloModel :=
  match kw_ng kw with
  | Some v => with_ng v p
  | None =>
      match kw_hod_params kw with
      | Some hp =>
          match hp !! "M_min" with
          | Some _ => with_ng None p
          | None => p
          end
      | None => p
      end
  end.

Definition before_solve (kw : kwargs) (p : HaloModel) : result HaloModel :=
  apply_kwargs kw (ng_after kw p).

(** The value of [projected_corr_gal]. *)
Definition projected_corr_gal_value (p : HaloModel) : result array :=
  let? cg := corr_gal p in
  let? fit := loglog_fit (r p) cg in
  map_result (projected_at fit) (r p).

(** The window of the sharp-cutoff branch as the specification words it:
    four points on each side of the crossing index, clipped to the array. *)
Definition window_four_each_side (ind : nat) (a : array) : array :=
  py_slice (ind - 4) (ind + 4 + 1) a.

Definition sharp_cut_mmin_four_each_side (cM integrand : array) (ng : R)
    : result R :=
  let? m1 := getitem cM 1 in
  let? m0 := getitem cM 0 in
  let integral := cumtrapz (reversed integrand) (ln m1 - ln m0) in
  let? top := getlast integral in
  if Rlt_dec top ng then Raise (NGException top)
  else
    let? ind := first_index_gt integral ng in
    let m := window_four_each_side ind (tail1 (reversed cM)) in
    let integral := window_four_each_side ind integral in
    let? spline_int := ext (spline (map ln integral) (map ln m) 3) in
    Ok (spl_call spline_int (ln ng) / ln 10).

(** ** Statements about runs *)

(** [wp m s Q]: the run of [m] from [s] ends in an outcome and a store
    that satisfy [Q]. *)
Definition wp {A} (m : Py A) (s : store) (Q : result A -> store -> Prop)
    : Prop :=
  Q (m s).1 (m s).2.

(** The solver's view of the store: [self] keeps the parameters of [i0]
    and its cache has only grown, the working copy [c] holds [cp], and
    every other object is as it was in [s0]. *)
Record tracks (s0 : store) (self c : loc) (i0 : instance) (cp : HaloModel)
    (s : store) : Prop := {
  tr_ne : self <> c;
  tr_self : exists m, s !! self = Some {| params := params i0; memo := m |}
                      /\ memo i0 ⊆ m;
  tr_copy : exists m, s !! c = Some {| params := cp; memo := m |};
  tr_frame : forall l, l <> self -> l <> c -> s !! l = s0 !! l;
  tr_dom : dom s = dom s0 ∪ {[c]}
}.

(** The object at [l] holds the parameters [p]. *)
Definition obj_at (s : store) (l : loc) (p : HaloModel) : Prop :=
  exists m, s !! l = Some {| params := p; memo := m |}.

(** A run that works on [self] in place: [self] keeps the parameters [p],
    its cache holds at least the entries [low], no object was created,
    and every other object is as it was in [s0]. *)
Record in_place (s0 : store) (self : loc) (p : HaloModel)
    (low : gset string) (s : store) : Prop := {
  ip_self : exists m, s !! self = Some {| params := p; memo := m |}
                      /\ low ⊆ m;
  ip_frame : forall l, l <> self -> s !! l = s0 !! l;
  ip_dom : dom s = dom s0
}.

End Objects.

Abbreviation loc := positive (only parsing).
Abbreviation store := (gmap positive instance) (only parsing).

(** ** A small closed instance

    Collaborators simple enough to run the methods by hand: a flat mass
    function ([dndm = 1 / M]), unit occupations on a two-point mass grid,
    kernels that return constant arrays over the radius grid, a quadrature
    that sums its samples, a spline that reports how many knots it was
    given, and an optimizer that evaluates its starting point once and
    gives up. *)

Module Toy.

Definition hod0 (sharp : bool) : hod_class :=
  fun _ => {| mmin := 1798 / 100;
              sharp_cut := sharp;
              _central := true;
              nc := map (fun _ => 1);
              ns := map (fun _ => 0);
              ntot := map (fun _ => 1) |}.

Definition profile0 : Profile :=
  {| has_lam := true;
     rho := fun _ _ => [];
     lam := fun _ _ => [];
     u := fun _ _ => [] |}.

Definition spline0 (x y : array) (k : nat) : external Spline :=
  inl {| spl_call := fun _ => INR (length x);
         spl_derivatives := fun _ => [0; 0; 0; 0] |}.

Definition minimize0 (f : R -> result R) (x0 tol : R) (method : string)
    (maxiter : nat) : list R * external OptimizeResult :=
  ([x0], inl {| res_x := [x0]; res_success := false; res_nit := maxiter |}).

Definition pulled0 (name : string) : gset string :=
  if String.eqb name "M" then {["hod"]}
  else if String.eqb name "n_tot" then {["hod"; "M"]}
  else if String.eqb name "dndm" then {["hod"; "M"]}
  else ∅.

Definition dependents0 (name : string) : gset string :=
  if String.eqb name "hod_params" then {["hod"; "M"; "n_tot"; "dndm"]}
  else ∅.

#[export] Instance externals : Externals := {|
  hmf_params := unit;
  hmf_kwargs := unit;
  hmf_update := fun _ h => inl h;
  hmf_dndm := fun _ m => map Rinv m;
  hmf_power := fun _ => [];
  hmf_nonlinear_power := fun _ => [];
  hmf_lnk := fun _ => [];
  hmf_mean_dens := fun _ => 1;
  hmf_delta_halo := fun _ => 200;
  cache_pulled := pulled0;
  cache_dependents := dependents0;
  get_profile := fun _ _ _ _ => inl profile0;
  call_bias_model := fun _ _ m => inl (map (fun _ => 1) m);
  get_bias := fun _ _ m => inl (map (fun _ => 1) m);
  power_to_corr_ogata := fun _ _ rr => map (fun _ => 0) rr;
  fort_power_gal_1h_ss := fun nlnk _ _ _ _ _ _ _ => repeat 0 nlnk;
  fort_corr_gal_1h_cs := fun nr _ _ _ _ _ _ _ _ _ => repeat 1 nr;
  fort_corr_gal_1h := fun nr _ _ _ _ _ _ _ _ _ _ _ => repeat 1 nr;
  thalo := fun _ _ _ _ _ _ _ _ _ rr _ _ _ _ _ => map (fun _ => 2) rr;
  simps_dx := fun y dx _ => fold_right Rplus 0 y * dx;
  simps_x := fun y _ => fold_right Rplus 0 y;
  spline := spline0;
  minimize := minimize0
|}.

(** A configuration with a target density [g] (or none). *)
Definition params0 (sharp : bool) (g : option R) : HaloModel :=
  {| hmf := tt;
     dlog10m := 1 / 100;
     ng := g;
     hod_params := ∅;
     hod_model := hod0 sharp;
     halo_profile := ProfileObj profile0;
     cm_relation := PyStr "duffy";
     bias_model := PyObject 0;
     rmin := 1;
     rmax := 50;
     rnum := 2;
     nonlinear := true;
     halo_exclusion := PyStr "None";
     scale_dependent_bias := true;
     nthreads_2halo := 0 |}.

Definition object0 (sharp : bool) (g : option R) : instance :=
  {| params := params0 sharp g; memo := ∅ |}.

(** A store with one object at location 1. *)
Definition store0 (sharp : bool) (g : option R) : store :=
  {[ 1%positive := object0 sharp g ]}.

(** The two masses of the grid. *)
Definition m0 : R := Rpower 10 (1798 / 100 + 0 * (1 / 100)).
Definition m1 : R := Rpower 10 (1798 / 100 + 1 * (1 / 100)).

(** The twenty masses of the grid that starts at [10 ** 17.8] with step
    0.01, a flat integrand on it (an abundance proportional to [1 / M]),
    and a target crossed at index 10 of the cumulative integral. *)
Definition masses20 : array :=
  map (fun i => Rpower 10 (178 / 10 + INR i * (1 / 100))) (seq 0 20).
Definition flat20 : array := repeat 2 20.
Definition target20 : R := 21 / 100 * ln 10.

(** [update(ng=0.001, hod_params={"M_min": 13})] and [update(ng=0.001)]. *)
Definition kw_ng_and_M_min : kwargs :=
  Build_kwargs (Some (Some (1 / 1000))) (Some {["M_min" := 13]}) None None
    None None None None None None None None None None.
Definition kw_ng_only : kwargs :=
  Build_kwargs (Some (Some (1 / 1000))) None None None None None None None
    None None None None None None.

(** [update(ng=10)] and [update(ng=0.001, halo_exclusion="cube")]. *)
Definition kw_ng_too_high : kwargs :=
  Build_kwargs (Some (Some 10)) None None None None None None None
    None None None None None None.
Definition kw_ng_bad_exclusion : kwargs :=
  Build_kwargs (Some (Some (1 / 1000))) None None None None None None None
    None None (Some (PyStr "cube")) None None None.

(** An occupation model whose floor is the top of the mass range, and a
    configuration that uses it: its mass grid is empty. *)
Definition hod_top : hod_class :=
  fun _ => {| mmin := 18;
              sharp_cut := true;
              _central := true;
              nc := map (fun _ => 1);
              ns := map (fun _ => 0);
              ntot := map (fun _ => 1) |}.

Definition params_top : HaloModel :=
  {| hmf := tt;
     dlog10m := 1 / 100;
     ng := None;
     hod_params := ∅;
     hod_model := hod_top;
     halo_profile := ProfileObj profile0;
     cm_relation := PyStr "duffy";
     bias_model := PyObject 0;
     rmin := 1;
     rmax := 50;
     rnum := 2;
     nonlinear := true;
     halo_exclusion := PyStr "None";
     scale_dependent_bias := true;
     nthreads_2halo := 0 |}.

Definition object_top : instance := {| params := params_top; memo := ∅ |}.

Definition store_top : store := {[ 1%positive := object_top ]}.

(** A profile without a [lam] method, and a configuration that uses it. *)
Definition profile1 : Profile :=
  {| has_lam := false;
     rho := fun _ _ => [];
     lam := fun _ _ => [];
     u := fun _ _ => [] |}.

Definition params1 : HaloModel :=
  {| hmf := tt;
     dlog10m := 1 / 100;
     ng := Some 1;
     hod_params := ∅;
     hod_model := hod0 true;
     halo_profile := ProfileObj profile1;
     cm_relation := PyStr "duffy";
     bias_model := PyObject 0;
     rmin := 1;
     rmax := 50;
     rnum := 2;
     nonlinear := true;
     halo_exclusion := PyStr "None";
     scale_dependent_bias := true;
     nthreads_2halo := 0 |}.

(** The arguments of [HaloModel(ng=0.001, ...)] with the smooth occupation
    model. *)
Definition args0 : init_args :=
  {| a_rmin := 1;
     a_rmax := 50;
     a_rnum := 2;
     a_hod_params := ∅;
     a_hod_model := hod0 false;
     a_halo_profile := ProfileObj profile0;
     a_cm_relation := PyStr "duffy";
     a_bias_model := PyObject 0;
     a_nonlinear := PyBool true;
     a_scale_dependent_bias := PyBool true;
     a_halo_exclusion := PyNone;
     a_ng := Some (1 / 1000);
     a_nthreads_2halo := 0;
     a_hmf := tt;
     a_dlog10m := 1 / 100 |}.

End Toy.

(** * Properties *)

(** ** Parameter setters *)

Lemma halo_exclusion_stored (val v : pyval) :
  Param.halo_exclusion val = Ok v ->
  Param.py_in v Param.halo_exclusion_available = true.
Proof.
  unfold Param.halo_exclusion.
  set (w := match val with PyNone => PyStr "None" | _ => val end).
  destruct (Param.py_in w Param.halo_exclusion_available) eqn:Hin; simpl.
  - intros [= <-]. exact Hin.
  - discriminate.
Qed.

Lemma assign_raises {E : Externals} {A B} (a : A) (setter : A -> result B)
    (name : string) (w : B -> HaloModel -> HaloModel) (l : loc) (s : store)
    (e : exn) :
  setter a = Raise e ->
  assign (Some a) setter name w l s = (Raise e, s).
Proof.
  intros H. unfold assign, bind, lift. rewrite H. reflexivity.
Qed.

(** C8 (amended): what the setters reject when a value is assigned.  The
    halo-exclusion setter raises for every value that is neither [None]
    nor one of the five modes, and whatever it stores is one of the modes;
    the concentration-mass setter raises for every unrecognized byte
    string and stores any value that is not a byte string unchanged; the
    profile and bias setters store whatever they are given.  A raising
    assignment leaves the object as it was. *)
Theorem setters_reject_at_assignment :
  (forall val, val <> PyNone ->
     Param.py_in val Param.halo_exclusion_available = false ->
     Param.halo_exclusion val
     = Raise (ValueError "halo_exclusion not acceptable: " val))
  /\ (forall val v, Param.halo_exclusion val = Ok v ->
        Param.py_in v Param.halo_exclusion_available = true)
  /\ (forall s, Param.py_in (PyStr s) Param.cm_relation_available = false ->
        Param.cm_relation (PyStr s)
        = Raise (ValueError "cm_relation not acceptable: " (PyStr s)))
  /\ (forall val, Param.isinstance_str val = false ->
        Param.cm_relation val = Ok val)
  /\ (forall val : profile_arg, Param.halo_profile val = Ok val)
  /\ (forall val, Param.bias_model val = Ok val)
  /\ (forall (E : Externals) val l s, val <> PyNone ->
        Param.py_in val Param.halo_exclusion_available = false ->
        assign (Some val) Param.halo_exclusion "halo_exclusion"
          with_halo_exclusion l s
        = (Raise (ValueError "halo_exclusion not acceptable: " val), s)).
Proof.
  assert (Hex : forall val, val <> PyNone ->
     Param.py_in val Param.halo_exclusion_available = false ->
     Param.halo_exclusion val
     = Raise (ValueError "halo_exclusion not acceptable: " val)).
  { intros val Hn Hin. unfold Param.halo_exclusion.
    destruct val; try congruence; rewrite Hin; reflexivity. }
  split; [exact Hex|].
  split; [exact halo_exclusion_stored|].
  split.
  { intros s Hin. unfold Param.cm_relation. rewrite Hin. reflexivity. }
  split.
  { intros val Hs. unfold Param.cm_relation.
    rewrite Hs. destruct (negb _); reflexivity. }
  split; [reflexivity|].
  split; [reflexivity|].
  intros E val l s Hn Hin. apply assign_raises. apply Hex; assumption.
Qed.

Lemma setters_reject_at_assignment_witness :
  Param.halo_exclusion (PyStr "cube")
  = Raise (ValueError "halo_exclusion not acceptable: " (PyStr "cube"))
  /\ Param.cm_relation (PyStr "nfw")
     = Raise (ValueError "cm_relation not acceptable: " (PyStr "nfw")).
Proof.
  split.
  - apply (proj1 setters_reject_at_assignment (PyStr "cube")).
    + discriminate.
    + reflexivity.
  - apply (proj1 (proj2 (proj2 setters_reject_at_assignment)) "nfw").
    reflexivity.
Defined.

(** The claim C8 as stated fails: an unrecognized concentration-mass
    identifier given as a [unicode] string is stored without any error. *)
Lemma cm_relation_accepts_unrecognized_unicode :
  Param.py_in (PyUnicode "nonsense") Param.cm_relation_available = false
  /\ Param.cm_relation (PyUnicode "nonsense") = Ok (PyUnicode "nonsense").
Proof. split; reflexivity. Qed.

(** ** Arrays *)

Lemma zip_with_length (f : R -> R -> R) (a b : array) :
  length a = length b -> length (zip_with f a b) = length a.
Proof.
  revert b. induction a as [|x a IH]; intros [|y b] H; simpl in *;
    try discriminate; auto.
Qed.

Lemma zip_with_nth (f : R -> R -> R) (a b : array) (k : nat) :
  length a = length b -> (k < length a)%nat ->
  nth k (zip_with f a b) 0 = f (nth k a 0) (nth k b 0).
Proof.
  revert b k. induction a as [|x a IH]; intros [|y b] k H Hk; simpl in *;
    try discriminate; try lia.
  destruct k as [|k]; [reflexivity|]. apply IH; [congruence|lia].
Qed.

Lemma np_binop_same_shape (f : R -> R -> R) (a b : array) :
  length a = length b -> np_binop f a b = Ok (zip_with f a b).
Proof.
  intros H. unfold np_binop. rewrite H, Nat.eqb_refl. reflexivity.
Qed.

Lemma getitem_nth (a : array) (k : nat) (x : R) :
  getitem a k = Ok x -> (k < length a)%nat /\ nth k a 0 = x.
Proof.
  unfold getitem. destruct (nth_error a k) as [y|] eqn:Hk; [|discriminate].
  intros [= <-]. split.
  - apply nth_error_Some. congruence.
  - apply nth_error_nth. exact Hk.
Qed.

Lemma rbind_Ok {A B} (m : result A) (k : A -> result B) (b : B) :
  rbind m k = Ok b -> exists a, m = Ok a /\ k a = Ok b.
Proof. destruct m as [a|e]; simpl; [eauto|discriminate]. Qed.

(** ** The toy mass grid *)

Lemma toy_M (p : HaloModel (E := Toy.externals)) (sharp : bool) :
  hod_model p = Toy.hod0 sharp -> dlog10m p = 1 / 100 ->
  M p = [Toy.m0; Toy.m1].
Proof.
  intros Hh Hd. unfold M, hod, arange. rewrite Hh, Hd. simpl mmin.
  rewrite (Zceil_eq 2); [reflexivity|lra].
Qed.

Lemma toy_masses_pos : 0 < Toy.m0 /\ 0 < Toy.m1.
Proof. split; apply exp_pos. Qed.

(** ** Derived quantities *)

(** C1: where both terms are defined on the radius grid, the galaxy
    correlation function is returned, lives on the same grid, and at every
    radius equals the one-halo term plus the two-halo term. *)
Theorem corr_gal_is_sum {E : Externals} (p : HaloModel) (c1 c2 : array) :
  corr_gal_1h p = Ok c1 ->
  corr_gal_2h p = Ok c2 ->
  length c1 = length (r p) ->
  length c2 = length (r p) ->
  exists c, corr_gal p = Ok c
            /\ length c = length (r p)
            /\ forall k, (k < length (r p))%nat ->
                 nth k c 0 = nth k c1 0 + nth k c2 0.
Proof.
  intros H1 H2 L1 L2.
  exists (zip_with Rplus c1 c2). split; [|split].
  - unfold corr_gal. rewrite H1, H2. simpl.
    apply np_binop_same_shape. congruence.
  - rewrite zip_with_length; congruence.
  - intros k Hk. apply zip_with_nth; [congruence|lia].
Qed.

Lemma corr_gal_is_sum_witness :
  exists c, corr_gal (Toy.params0 true (Some 1)) = Ok c
            /\ length c = length (r (Toy.params0 true (Some 1)))
            /\ forall k, (k < length (r (Toy.params0 true (Some 1%R))))%nat ->
                 nth k c 0 = nth k [1 / 1 ^ 2; 1 / 1 ^ 2] 0 + nth k [2; 2] 0.
Proof.
  apply (corr_gal_is_sum (Toy.params0 true (Some 1))); reflexivity.
Defined.

(** C9: whenever the mean galaxy density is positive and the satellite
    fraction is returned, the central fraction is returned too and the two
    add up to one. *)
Theorem fractions_sum_to_one {E : Externals} (p : HaloModel) (d s : R) :
  mean_gal_den p = Ok d ->
  0 < d ->
  satellite_fraction p = Ok s ->
  exists c, central_fraction p = Ok c /\ c + s = 1.
Proof.
  intros _ _ Hs. exists (1 - s). split.
  - unfold central_fraction. rewrite Hs. reflexivity.
  - ring.
Qed.

Lemma toy_satellite_fraction (sharp : bool) (g : R) :
  satellite_fraction (Toy.params0 sharp (Some g))
  = Ok ((Toy.m0 * / Toy.m0 * 0 + (Toy.m1 * / Toy.m1 * 0 + 0))
        * (ln Toy.m1 - ln Toy.m0) / g).
Proof.
  unfold satellite_fraction, mass_weighted, dlnM, n_sat, dndm, mean_gal_den.
  rewrite (toy_M _ sharp) by reflexivity. reflexivity.
Qed.

Lemma fractions_sum_to_one_witness :
  exists c, central_fraction (Toy.params0 true (Some 1)) = Ok c
            /\ c + (Toy.m0 * / Toy.m0 * 0 + (Toy.m1 * / Toy.m1 * 0 + 0))
                   * (ln Toy.m1 - ln Toy.m0) / 1 = 1.
Proof.
  apply (fractions_sum_to_one (Toy.params0 true (Some 1)) 1).
  - reflexivity.
  - lra.
  - apply toy_satellite_fraction.
Defined.

Lemma mass_weighted_pointwise {E : Externals} (p : HaloModel) (w : array) :
  length (dndm p) = length (M p) ->
  length w = length (M p) ->
  exists integrand,
    mass_weighted p w = Ok integrand
    /\ length integrand = length (M p)
    /\ forall k, (k < length (M p))%nat ->
         nth k integrand 0 = nth k (M p) 0 * nth k (dndm p) 0 * nth k w 0.
Proof.
  intros Hd Hw.
  exists (zip_with Rmult (zip_with Rmult (M p) (dndm p)) w).
  assert (L : length (zip_with Rmult (M p) (dndm p)) = length (M p))
    by (apply zip_with_length; congruence).
  split; [|split].
  - unfold mass_weighted, np_mul.
    rewrite (np_binop_same_shape Rmult (M p) (dndm p)) by congruence. simpl.
    apply np_binop_same_shape. congruence.
  - rewrite zip_with_length; congruence.
  - intros k Hk. rewrite zip_with_nth by (congruence || lia).
    rewrite zip_with_nth by (congruence || lia). reflexivity.
Qed.

(** C10: with a target density set, [mean_gal_den] is that density, whatever
    the other parameters are; with none, it is the Simpson integral
    ([even="first"]) of mass times abundance times total occupation over
    the mass grid, with the logarithmic step of the first two masses. *)
Theorem mean_gal_den_spec {E : Externals} :
  (forall p g, ng p = Some g -> mean_gal_den p = Ok g)
  /\ (forall p m0 m1,
        ng p = None ->
        length (dndm p) = length (M p) ->
        length (n_tot p) = length (M p) ->
        getitem (M p) 0 = Ok m0 ->
        getitem (M p) 1 = Ok m1 ->
        exists integrand,
          length integrand = length (M p)
          /\ (forall k, (k < length (M p))%nat ->
                nth k integrand 0
                = nth k (M p) 0 * nth k (dndm p) 0 * nth k (n_tot p) 0)
          /\ mean_gal_den p
             = Ok (simps_dx integrand (ln m1 - ln m0) "first")).
Proof.
  split.
  - intros p g Hg. unfold mean_gal_den. rewrite Hg. reflexivity.
  - intros p m0 m1 Hg Hd Hn H0 H1.
    destruct (mass_weighted_pointwise p (n_tot p) Hd Hn)
      as (integrand & Hi & Hl & Hk).
    exists integrand. split; [exact Hl|]. split; [exact Hk|].
    unfold mean_gal_den, dlnM. rewrite Hg, Hi, H1, H0. reflexivity.
Qed.

Lemma mean_gal_den_spec_witness :
  mean_gal_den (Toy.params0 false (Some 3)) = Ok 3
  /\ exists integrand,
       length integrand = length (M (Toy.params0 false None))
       /\ (forall k, (k < length (M (Toy.params0 false None)))%nat ->
             nth k integrand 0
             = nth k (M (Toy.params0 false None)) 0
               * nth k (dndm (Toy.params0 false None)) 0
               * nth k (n_tot (Toy.params0 false None)) 0)
       /\ mean_gal_den (Toy.params0 false None)
          = Ok (@simps_dx Toy.externals integrand (ln Toy.m1 - ln Toy.m0)
                  "first").
Proof.
  split.
  - apply (proj1 mean_gal_den_spec). reflexivity.
  - apply (proj2 mean_gal_den_spec (Toy.params0 false None) Toy.m0 Toy.m1).
    + reflexivity.
    + unfold dndm. rewrite (toy_M _ false) by reflexivity. reflexivity.
    + unfold n_tot. rewrite (toy_M _ false) by reflexivity. reflexivity.
    + rewrite (toy_M _ false) by reflexivity. reflexivity.
    + rewrite (toy_M _ false) by reflexivity. reflexivity.
Defined.

(** ** Running methods on the store *)

Section Runs.
Context {E : Externals}.

Lemma wp_bind {A B} (m : Py A) (k : A -> Py B) s Q :
  wp m s (fun r s' => match r with
                      | Ok a => wp (k a) s' Q
                      | Raise e => Q (Raise e) s'
                      end) ->
  wp (bind m k) s Q.
Proof.
  unfold wp, bind. destruct (m s) as [[a|e] s']; simpl; auto.
Qed.

Lemma wp_ret {A} (a : A) s (Q : result A -> store -> Prop) :
  Q (Ok a) s -> wp (ret a) s Q.
Proof. auto. Qed.

Lemma wp_raise {A} e s (Q : result A -> store -> Prop) :
  Q (Raise e) s -> wp (raise e) s Q.
Proof. auto. Qed.

Lemma wp_lift {A} (m : result A) s (Q : result A -> store -> Prop) :
  Q m s -> wp (lift m) s Q.
Proof. auto. Qed.

Lemma wp_mono {A} (m : Py A) s (Q Q' : result A -> store -> Prop) :
  wp m s Q -> (forall r s', Q r s' -> Q' r s') -> wp m s Q'.
Proof. unfold wp. auto. Qed.

Lemma tracks_insert_self s0 self c i0 cp s m m' :
  tracks s0 self c i0 cp s ->
  s !! self = Some {| params := params i0; memo := m |} ->
  m ⊆ m' ->
  tracks s0 self c i0 cp (<[self := {| params := params i0; memo := m' |}]> s).
Proof.
  intros [Hne (m1 & Hs & Hm) (mc & Hc) Hf Hd] Hl Hsub.
  rewrite Hl in Hs. injection Hs as <-.
  constructor.
  - exact Hne.
  - exists m'. rewrite lookup_insert_eq. split; [reflexivity|set_solver].
  - exists mc. rewrite lookup_insert_ne by exact Hne. exact Hc.
  - intros l H1 H2. rewrite lookup_insert_ne by auto. auto.
  - rewrite dom_insert_L, <- Hd.
    assert (self ∈ dom s) by (apply elem_of_dom; eauto). set_solver.
Qed.

Lemma tracks_insert_copy s0 self c i0 cp cp' s m' :
  tracks s0 self c i0 cp s ->
  tracks s0 self c i0 cp' (<[c := {| params := cp'; memo := m' |}]> s).
Proof.
  intros [Hne (m1 & Hs & Hm) (mc & Hc) Hf Hd].
  constructor.
  - exact Hne.
  - exists m1. rewrite lookup_insert_ne by auto. auto.
  - exists m'. rewrite lookup_insert_eq. reflexivity.
  - intros l H1 H2. rewrite lookup_insert_ne by auto. auto.
  - rewrite dom_insert_L, Hd. set_solver.
Qed.

Lemma wp_prop_self {A} name (body : HaloModel -> result A) s0 self c i0 cp s Q :
  tracks s0 self c i0 cp s ->
  (forall s', tracks s0 self c i0 cp s' -> Q (body (params i0)) s') ->
  wp (prop name body self) s Q.
Proof.
  intros Htr HQ. pose proof Htr as [_ (m & Hs & Hm) _ _ _].
  unfold wp, prop, bind, get_params, lift, modify, ret. rewrite Hs. simpl.
  destruct (body (params i0)) as [v|e]; simpl.
  - rewrite Hs. simpl. apply HQ.
    eapply tracks_insert_self; eauto. set_solver.
  - apply HQ. exact Htr.
Qed.

Lemma wp_prop_copy {A} name (body : HaloModel -> result A) s0 self c i0 cp s Q :
  tracks s0 self c i0 cp s ->
  (forall s', tracks s0 self c i0 cp s' -> Q (body cp) s') ->
  wp (prop name body c) s Q.
Proof.
  intros Htr HQ. pose proof Htr as [_ _ (m & Hc) _ _].
  unfold wp, prop, bind, get_params, lift, modify, ret. rewrite Hc. simpl.
  destruct (body cp) as [v|e]; simpl.
  - rewrite Hc. simpl. apply HQ.
    eapply tracks_insert_copy; eauto.
  - apply HQ. exact Htr.
Qed.

Lemma wp_setattr_copy name f s0 self c i0 cp s (Q : result unit -> store -> Prop) :
  tracks s0 self c i0 cp s ->
  (forall s', tracks s0 self c i0 (f cp) s' -> Q (Ok tt) s') ->
  wp (setattr name f c) s Q.
Proof.
  intros Htr HQ. pose proof Htr as [_ _ (m & Hc) _ _].
  unfold wp, setattr, modify. rewrite Hc. simpl. apply HQ.
  eapply tracks_insert_copy; eauto.
Qed.

Lemma wp_get_params_copy s0 self c i0 cp s (Q : result HaloModel -> store -> Prop) :
  tracks s0 self c i0 cp s ->
  Q (Ok cp) s ->
  wp (get_params c) s Q.
Proof.
  intros [_ _ (m & Hc) _ _] HQ.
  unfold wp, get_params. rewrite Hc. exact HQ.
Qed.


Ltac wp_step :=
  lazymatch goal with
  | |- wp (bind _ _) _ _ => apply wp_bind
  | |- wp (ret _) _ _ => apply wp_ret
  | |- wp (raise _) _ _ => apply wp_raise
  | |- wp (lift _) _ _ => apply wp_lift
  | |- wp (setattr _ _ _) _ _ =>
      eapply wp_setattr_copy; [eassumption | intros ? ?]
  | |- wp (get_params _) _ _ => eapply wp_get_params_copy; [eassumption|]
  | |- wp (prop _ _ _) _ _ => eapply wp_prop_copy; [eassumption | intros ? ?]
  end;
  cbn beta iota.

Lemma wp_update_copy_hod solver hp x s0 self c i0 cp s
    (Q : result unit -> store -> Prop) :
  hp !! "M_min" = Some x ->
  tracks s0 self c i0 cp s ->
  (forall s', tracks s0 self c i0 (with_hod_params hp (with_ng None cp)) s' ->
     Q (Ok tt) s') ->
  wp (update_with solver c (kw_hod hp)) s Q.
Proof.
  intros Hx Htr HQ.
  unfold update_with, super_update, kw_hod. simpl. rewrite Hx.
  unfold Param.hod_params.
  repeat wp_step. simpl. repeat wp_step. auto.
Qed.

Lemma wp_update_copy_hod_dlog10m solver hp d x s0 self c i0 cp s
    (Q : result unit -> store -> Prop) :
  hp !! "M_min" = Some x ->
  tracks s0 self c i0 cp s ->
  (forall s', tracks s0 self c i0
                (with_dlog10m d (with_hod_params hp (with_ng None cp))) s' ->
     Q (Ok tt) s') ->
  wp (update_with solver c (kw_hod_dlog10m hp d)) s Q.
Proof.
  intros Hx Htr HQ.
  unfold update_with, super_update, kw_hod_dlog10m. simpl. rewrite Hx.
  unfold Param.hod_params.
  repeat wp_step. simpl. repeat wp_step. auto.
Qed.

Lemma wp_model solver s0 self c i0 cp s ng0 mmin0
    (Q : result R -> store -> Prop) :
  tracks s0 self c i0 cp s ->
  (forall s', tracks s0 self c i0
                (with_hod_params {["M_min" := mmin0]} (with_ng None cp)) s' ->
     Q (model_value cp ng0 mmin0) s') ->
  wp (model (update_with solver) c ng0 mmin0) s Q.
Proof.
  intros Htr HQ. unfold model.
  apply wp_bind. eapply wp_update_copy_hod; [apply lookup_singleton_eq|eassumption|].
  intros s1 H1. cbn beta iota.
  unfold model_value, mass_weighted, dlnM in HQ.
  set (cp' := with_hod_params {["M_min" := mmin0]} (with_ng None cp)) in *.
  unfold total.
  repeat wp_step.
  destruct (np_mul (M cp') (dndm cp')) as [md|e]; simpl in *; [|auto].
  repeat wp_step.
  destruct (np_mul md (n_tot cp')) as [integrand|e]; simpl in *; [|auto].
  repeat wp_step.
  destruct (getitem (M cp') 1) as [m1|e]; simpl in *; [|auto].
  repeat wp_step.
  destruct (getitem (M cp') 0) as [m0|e]; simpl in *; [|auto].
  repeat wp_step. auto.
Qed.

Lemma model_value_after_call (cp : HaloModel) (ng0 m x : R) :
  model_value (with_hod_params {["M_min" := m]} (with_ng None cp)) ng0 x
  = model_value cp ng0 x.
Proof. reflexivity. Qed.

Lemma wp_replay solver s0 self c i0 cp ng0 calls :
  forall cp' s (Q : result unit -> store -> Prop),
  tracks s0 self c i0 cp' s ->
  (forall x, model_value cp' ng0 x = model_value cp ng0 x) ->
  (forall s' cp'', tracks s0 self c i0 cp'' s' ->
     Q (let? _ := map_result (model_value cp ng0) calls in Ok tt) s') ->
  wp (for_each (fun mmin0 =>
                  bind (model (update_with solver) c ng0 mmin0)
                       (fun _ => ret tt)) calls) s Q.
Proof.
  induction calls as [|x calls IH]; intros cp' s Q Htr Heq HQ; simpl.
  - apply wp_ret. eapply HQ. eassumption.
  - cbn [map_result] in HQ.
    apply wp_bind. apply wp_bind.
    eapply wp_model; [eassumption|]. intros s1 H1. rewrite Heq.
    destruct (model_value cp ng0 x) as [v|e]; simpl in *.
    + apply wp_ret. cbn beta iota.
      eapply IH; [eassumption| |].
      * intros y. rewrite model_value_after_call. apply Heq.
      * intros s2 cp2 H2. specialize (HQ s2 cp2 H2).
        destruct (map_result (model_value cp ng0) calls); exact HQ.
    + eapply HQ. eassumption.
Qed.

Lemma prop_total_run {A} name (f : HaloModel -> A) l (s : store) i :
  s !! l = Some i ->
  prop name (total f) l s
  = (Ok (f (params i)),
     <[l := {| params := params i;
               memo := memo i ∪ {[name]} ∪ cache_pulled name |}]> s).
Proof.
  intros H. unfold prop, total, bind, get_params, lift, modify, ret.
  rewrite H. simpl. rewrite H. reflexivity.
Qed.

Lemma deepcopy_run l (s : store) i :
  s !! l = Some i ->
  deepcopy l s = (Ok (fresh (dom s)), <[fresh (dom s) := i]> s).
Proof. intros H. unfold deepcopy. rewrite H. reflexivity. Qed.

Lemma tracks_after_copy (s0 : store) self i0 m :
  s0 !! self = Some i0 ->
  memo i0 ⊆ m ->
  tracks s0 self (fresh (dom s0)) i0 (params i0)
    (<[fresh (dom s0) := {| params := params i0; memo := m |}]>
       (<[self := {| params := params i0; memo := m |}]> s0)).
Proof.
  intros Hs Hm.
  assert (Hin : self ∈ dom s0) by (apply elem_of_dom; eauto).
  assert (Hne : self <> fresh (dom s0)).
  { intros Heq. apply (is_fresh (dom s0)). rewrite <- Heq. exact Hin. }
  constructor.
  - exact Hne.
  - exists m. rewrite lookup_insert_ne by auto. rewrite lookup_insert_eq. auto.
  - exists m. rewrite lookup_insert_eq. reflexivity.
  - intros l H1 H2. rewrite !lookup_insert_ne by auto. reflexivity.
  - rewrite !dom_insert_L. set_solver.
Qed.

Lemma wp_find_m_min f self ng0 (s0 : store) i0 (Q : result R -> store -> Prop) :
  s0 !! self = Some i0 ->
  (forall s' cp', tracks s0 self (fresh (dom s0)) i0 cp' s' ->
     Q (find_m_min_value (params i0) ng0) s') ->
  wp (_find_m_min (S f) self ng0) s0 Q.
Proof.
  intros Hs HQ. simpl.
  apply wp_bind. unfold wp at 1. rewrite (prop_total_run _ _ _ _ _ Hs). simpl.
  apply wp_bind. unfold wp at 1.
  erewrite deepcopy_run by apply lookup_insert_eq. simpl.
  assert (Hd : dom (<[self := {| params := params i0;
                       memo := memo i0 ∪ {["power"]} ∪ cache_pulled "power" |}]> s0)
               = dom s0).
  { rewrite dom_insert_L.
    assert (self ∈ dom s0) by (apply elem_of_dom; eauto). set_solver. }
  rewrite Hd.
  pose proof (tracks_after_copy s0 self i0
                (memo i0 ∪ {["power"]} ∪ cache_pulled "power") Hs
                ltac:(set_solver)) as Htr.
  set (c := fresh (dom s0)) in *.
  apply wp_bind.
  eapply wp_update_copy_hod_dlog10m; [apply lookup_singleton_eq|exact Htr|].
  clear Htr. intros s1 Htr. cbn beta iota.
  unfold find_m_min_value, mass_weighted in HQ. fold (solver_copy (params i0)) in Htr.
  set (cp := solver_copy (params i0)) in *.
  unfold total.
  repeat wp_step.
  destruct (np_mul (M cp) (dndm cp)) as [md|e]; simpl in *; [|eauto].
  repeat wp_step.
  destruct (np_mul md (n_tot cp)) as [integrand|e]; simpl in *; [|eauto].
  repeat wp_step.
  eapply wp_prop_self; [eassumption|]. intros s2 H2. cbn beta iota.
  fold (hod (params i0)) in HQ |- *.
  destruct (sharp_cut (hod (params i0))).
  - apply wp_lift. eauto.
  - repeat wp_step.
    destruct (smooth_max_density (M cp) integrand) as [integral|e];
      simpl in *; [|eauto].
    destruct (Rlt_dec integral ng0).
    + apply wp_raise. eauto.
    + repeat wp_step.
      destruct (minimize (model_value cp ng0) 12 (1 / 1000) "Nelder-Mead" 200)
        as [calls outcome].
      apply wp_bind.
      eapply wp_replay; [eassumption|reflexivity|].
      intros s3 cp3 H3.
      destruct (map_result (model_value cp ng0) calls) as [vs|e];
        simpl in *; [|eauto].
      repeat wp_step.
      destruct (ext outcome) as [res|e]; simpl in *; [|eauto].
      apply wp_lift. eauto.
Qed.

Lemma find_m_min_run self ng0 (s0 : store) i0 :
  s0 !! self = Some i0 ->
  (find_m_min self ng0 s0).1 = find_m_min_value (params i0) ng0
  /\ exists cp', tracks s0 self (fresh (dom s0)) i0 cp'
                   (find_m_min self ng0 s0).2.
Proof.
  intros Hs. unfold find_m_min, recursion_limit.
  change 1000%nat with (S 999).
  apply (wp_find_m_min 999 self ng0 s0 i0
           (fun r s' => r = find_m_min_value (params i0) ng0
                        /\ exists cp', tracks s0 self (fresh (dom s0)) i0 cp' s')
           Hs).
  intros s' cp' Htr. split; [reflexivity|eauto].
Qed.

(** Enough fuel: one level of the mutual recursion is all a call uses. *)
Lemma find_m_min_fuel f self ng0 (s0 : store) i0 :
  s0 !! self = Some i0 ->
  (_find_m_min (S f) self ng0 s0).1 = find_m_min_value (params i0) ng0.
Proof.
  intros Hs.
  apply (wp_find_m_min f self ng0 s0 i0
           (fun r _ => r = find_m_min_value (params i0) ng0) Hs).
  reflexivity.
Qed.

End Runs.

(** ** Which exceptions the pieces of the solver raise *)

Lemma np_binop_raises f a b e : np_binop f a b = Raise e -> e = ShapeError.
Proof.
  unfold np_binop. destruct (Nat.eqb _ _); [discriminate|].
  destruct a as [|x [|x' a]]; destruct b as [|y [|y' b]];
    try discriminate; intros [= <-]; reflexivity.
Qed.

Lemma getitem_raises a k e : getitem a k = Raise e -> e = IndexError.
Proof.
  unfold getitem. destruct (nth_error a k); [discriminate|].
  intros [= <-]. reflexivity.
Qed.

Lemma first_index_gt_raises a t e :
  first_index_gt a t = Raise e -> e = IndexError.
Proof.
  induction a as [|x a IH]; simpl.
  - intros [= <-]. reflexivity.
  - destruct (Rgt_dec x t); [discriminate|].
    destruct (first_index_gt a t); simpl; [discriminate|].
    intros [= <-]. apply IH. reflexivity.
Qed.

Lemma ext_raises {A} (x : external A) e :
  ext x = Raise e -> is_NGException e = false.
Proof. destruct x; simpl; [discriminate|]. intros [= <-]. reflexivity. Qed.

Lemma mass_weighted_raises {E : Externals} p w e :
  mass_weighted p w = Raise e -> is_NGException e = false.
Proof.
  unfold mass_weighted.
  destruct (np_mul (M p) (dndm p)) as [md|e1] eqn:H1; simpl.
  - intros H. apply np_binop_raises in H. subst. reflexivity.
  - intros [= <-]. apply np_binop_raises in H1. subst. reflexivity.
Qed.

Lemma dlnM_raises {E : Externals} p e :
  dlnM p = Raise e -> is_NGException e = false.
Proof.
  unfold dlnM.
  destruct (getitem (M p) 1) as [m1|e1] eqn:H1; simpl.
  - destruct (getitem (M p) 0) as [m0|e0] eqn:H0; simpl; [discriminate|].
    intros [= <-]. apply getitem_raises in H0. subst. reflexivity.
  - intros [= <-]. apply getitem_raises in H1. subst. reflexivity.
Qed.

Lemma model_value_raises {E : Externals} cp ng0 x e :
  model_value cp ng0 x = Raise e -> is_NGException e = false.
Proof.
  unfold model_value.
  destruct (mass_weighted _ _) as [ig|e1] eqn:H1; simpl.
  - destruct (dlnM _) as [dx|e2] eqn:H2; simpl; [discriminate|].
    intros [= <-]. eapply dlnM_raises; eassumption.
  - intros [= <-]. eapply mass_weighted_raises; eassumption.
Qed.

Lemma map_result_raises {A B} (f : A -> result B) xs e :
  map_result f xs = Raise e -> exists x, In x xs /\ f x = Raise e.
Proof.
  induction xs as [|x xs IH]; simpl; [discriminate|].
  destruct (f x) as [y|e1] eqn:Hx; simpl.
  - destruct (map_result f xs) as [ys|e2]; simpl; [discriminate|].
    intros [= <-]. destruct IH as (x' & Hin & Hx'); eauto.
  - intros [= <-]. eauto.
Qed.

Lemma getlast_raises a e : getlast a = Raise e -> e = IndexError.
Proof. destruct a; simpl; [|discriminate]. intros [= <-]. reflexivity. Qed.

Lemma find_m_min_value_NGException {E : Externals} (p : HaloModel) (ng0 v : R) :
  find_m_min_value p ng0 = Raise (NGException v)
  <-> (max_density p = Ok v /\ v < ng0).
Proof.
  unfold find_m_min_value, max_density.
  set (cp := solver_copy p).
  destruct (mass_weighted cp (n_tot cp)) as [ig|e] eqn:Hmw; simpl.
  2: { apply mass_weighted_raises in Hmw. split.
       - intros [= ->]. simpl in Hmw. discriminate.
       - intros [H _]. discriminate. }
  destruct (sharp_cut (hod p)).
  - unfold sharp_cut_mmin, dlnM.
    destruct (getitem (M cp) 1) as [m1|e] eqn:H1; simpl.
    2: { apply getitem_raises in H1. subst. split.
         - discriminate.
         - intros [H _]. discriminate. }
    destruct (getitem (M cp) 0) as [m0|e] eqn:H0; simpl.
    2: { apply getitem_raises in H0. subst. split.
         - discriminate.
         - intros [H _]. discriminate. }
    destruct (getlast (cumtrapz (reversed ig) (ln m1 - ln m0)))
      as [top|e] eqn:Ht; simpl.
    2: { apply getlast_raises in Ht. subst. split.
         - discriminate.
         - intros [H _]. discriminate. }
    destruct (Rlt_dec top ng0) as [Hlt|Hge].
    + split.
      * intros [= ->]. auto.
      * intros [[= ->] _]. reflexivity.
    + split.
      * destruct (first_index_gt _ ng0) as [ind|e] eqn:Hi; simpl.
        -- destruct (ext _) as [fit|e] eqn:Hf; simpl; [discriminate|].
           intros [= ->]. apply ext_raises in Hf. simpl in Hf. discriminate.
        -- intros [= ->]. apply first_index_gt_raises in Hi. discriminate.
      * intros [[= ->] Hlt]. contradiction.
  - destruct (smooth_max_density (M cp) ig) as [integral|e] eqn:Hi; simpl.
    2: { split.
         - intros [= ->]. unfold smooth_max_density in Hi.
           destruct (getitem (M cp) 1) as [m1|e1] eqn:H1; simpl in Hi.
           + destruct (getitem (M cp) 0) as [m0|e0] eqn:H0; simpl in Hi;
               [discriminate|].
             injection Hi as ->. apply getitem_raises in H0. discriminate.
           + injection Hi as ->. apply getitem_raises in H1. discriminate.
         - intros [H _]. discriminate. }
    destruct (Rlt_dec integral ng0) as [Hlt|Hge].
    + split.
      * intros [= ->]. auto.
      * intros [[= ->] _]. reflexivity.
    + split.
      * destruct (minimize _ _ _ _ _) as [calls outcome].
        destruct (map_result (model_value cp ng0) calls) as [vs|e] eqn:Hm;
          simpl.
        -- destruct (ext outcome) as [res|e] eqn:Ho; simpl.
           ++ intros H. apply getitem_raises in H. discriminate.
           ++ intros [= ->]. apply ext_raises in Ho. simpl in Ho. discriminate.
        -- intros [= ->]. apply map_result_raises in Hm.
           destruct Hm as (x & _ & Hx). apply model_value_raises in Hx.
           simpl in Hx. discriminate.
      * intros [[= ->] Hlt]. contradiction.
Qed.

(** ** The minimum-mass solver *)

(** C3: [_find_m_min(ng)] raises the density-unattainable exception exactly
    when the density integral at the floor mass (the total of the
    cumulative trapezoid sum under a sharp cutoff, the Simpson integral
    otherwise) is below [ng], and the exception carries that integral. *)
Theorem find_m_min_raises_NGException_iff {E : Externals}
    (s : store) (self : loc) (i : instance) (ng0 v : R) :
  s !! self = Some i ->
  (find_m_min self ng0 s).1 = Raise (NGException v)
  <-> (max_density (params i) = Ok v /\ v < ng0).
Proof.
  intros Hs. rewrite (proj1 (find_m_min_run self ng0 s i Hs)).
  apply find_m_min_value_NGException.
Qed.

Lemma first_index_gt_spec (a : array) (t : R) (ind : nat) :
  first_index_gt a t = Ok ind ->
  (ind < length a)%nat
  /\ nth ind a 0 > t
  /\ forall j, (j < ind)%nat -> ~ nth j a 0 > t.
Proof.
  revert ind. induction a as [|x a IH]; simpl; intros ind; [discriminate|].
  destruct (Rgt_dec x t) as [Hx|Hx].
  - intros [= <-]. split; [lia|]. split; [exact Hx|]. intros j Hj. lia.
  - destruct (first_index_gt a t) as [i|e]; simpl; [|discriminate].
    intros [= <-]. destruct (IH i eq_refl) as (Hl & Hn & Hj).
    split; [lia|]. split; [exact Hn|].
    intros [|j] Hlt; [exact Hx|]. apply Hj. lia.
Qed.

Lemma last_cons (a : array) (y x : R) :
  List.last (y :: a) x = List.last a y.
Proof.
  revert y x. induction a as [|z a IH]; intros y x; [reflexivity|].
  change (List.last (y :: z :: a) x) with (List.last (z :: a) x).
  rewrite (IH z x), (IH z y). reflexivity.
Qed.

Lemma first_index_gt_exists (a : array) (t top : R) :
  getlast a = Ok top -> t < top -> exists ind, first_index_gt a t = Ok ind.
Proof.
  induction a as [|x a IH]; simpl; [discriminate|].
  intros [= Hl] Ht. destruct (Rgt_dec x t) as [Hx|Hx]; [eauto|].
  destruct a as [|y a].
  - simpl in Hl. subst. exfalso. apply Hx. exact Ht.
  - destruct IH as [i Hi].
    + simpl. f_equal. rewrite <- last_cons with (x := x). exact Hl.
    + exact Ht.
    + rewrite Hi. simpl. eauto.
Qed.

Lemma window_lo_eq (ind : nat) : window_lo ind = (ind - 4)%nat.
Proof. unfold window_lo. lia. Qed.

Lemma window_hi_eq (ind n : nat) : window_hi ind n = Nat.min (ind + 4) n.
Proof. unfold window_hi. lia. Qed.

Lemma py_slice_length (lo hi : nat) (a : array) :
  length (py_slice lo hi a) = Nat.min (hi - lo) (length a - lo).
Proof. unfold py_slice. rewrite length_firstn, length_skipn. reflexivity. Qed.

Lemma py_slice_nth (lo hi k : nat) (a : array) :
  (k < hi - lo)%nat -> nth k (py_slice lo hi a) 0 = nth (lo + k) a 0.
Proof.
  intros Hk. unfold py_slice.
  rewrite nth_firstn.
  destruct (Nat.ltb_spec k (hi - lo)); [|lia].
  apply nth_skipn.
Qed.

Lemma dlnM_Ok {E : Externals} (p : HaloModel) (dx : R) :
  dlnM p = Ok dx ->
  exists m1 m0, getitem (M p) 1 = Ok m1 /\ getitem (M p) 0 = Ok m0
                /\ dx = ln m1 - ln m0.
Proof.
  unfold dlnM.
  destruct (getitem (M p) 1) as [m1|]; simpl; [|discriminate].
  destruct (getitem (M p) 0) as [m0|]; simpl; [|discriminate].
  intros [= <-]. eauto.
Qed.

(** C4 (amended): under a sharp cutoff and a target strictly below the
    total, [_find_m_min] works on the grid of step 0.01 that starts at the
    floor of the occupation model built with [M_min = 8]; it takes the
    first index [ind] at which the reversed cumulative trapezoid integral
    exceeds [ng], keeps the entries from [ind - 4] (not below 0) up to but
    excluding [ind + 4] (not past the array): at most eight, four of them
    before [ind]; it fits the cubic spline of log mass against log integral
    over them and returns its value at [log ng] divided by [log 10]. *)
Theorem find_m_min_sharp_cut {E : Externals}
    (s : store) (self : loc) (i : instance) (ng0 : R)
    (integrand : array) (dx top : R) :
  s !! self = Some i ->
  sharp_cut (hod (params i)) = true ->
  mass_weighted (solver_copy (params i)) (n_tot (solver_copy (params i)))
  = Ok integrand ->
  dlnM (solver_copy (params i)) = Ok dx ->
  getlast (cumtrapz (reversed integrand) dx) = Ok top ->
  ng0 < top ->
  let cM := M (solver_copy (params i)) in
  let integral := cumtrapz (reversed integrand) dx in
  cM = map (Rpower 10)
         (arange (mmin (hod_model (params i) {["M_min" := 8]})) 18 (1 / 100))
  /\ exists ind,
       first_index_gt integral ng0 = Ok ind
       /\ nth ind integral 0 > ng0
       /\ (forall j, (j < ind)%nat -> ~ nth j integral 0 > ng0)
       /\ let lo := (ind - 4)%nat in
          let hi := Nat.min (ind + 4) (length cM) in
          (find_m_min self ng0 s).1
          = (let? fit := ext (spline (map ln (py_slice lo hi integral))
                                (map ln (py_slice lo hi (tail1 (reversed cM))))
                                3) in
             Ok (spl_call fit (ln ng0) / ln 10))
          /\ (length (py_slice lo hi integral) <= 8)%nat
          /\ forall k, (k < hi - lo)%nat ->
               nth k (py_slice lo hi integral) 0 = nth (lo + k) integral 0.
Proof.
  intros Hs Hsharp Hmw Hdx Htop Hlt cM integral.
  split; [reflexivity|].
  destruct (first_index_gt_exists integral ng0 top Htop Hlt) as [ind Hind].
  exists ind. destruct (first_index_gt_spec _ _ _ Hind) as (_ & Hn & Hj).
  split; [exact Hind|]. split; [exact Hn|]. split; [exact Hj|].
  intros lo hi. split; [|split].
  - rewrite (proj1 (find_m_min_run self ng0 s i Hs)).
    unfold find_m_min_value. rewrite Hmw, Hsharp. simpl.
    destruct (dlnM_Ok _ _ Hdx) as (m1 & m0 & H1 & H0 & ->).
    unfold sharp_cut_mmin. unfold lo, hi, cM, integral in *.
    rewrite H1, H0. simpl. rewrite Htop. simpl.
    destruct (Rlt_dec top ng0) as [Hbad|_]; [lra|].
    rewrite Hind. simpl. rewrite window_lo_eq, window_hi_eq. reflexivity.
  - rewrite py_slice_length. unfold lo, hi. lia.
  - intros k Hk. apply py_slice_nth. exact Hk.
Qed.

(** C5: without a sharp cutoff and with the target not above the Simpson
    integral at the floor mass, [_find_m_min] hands [|integral(M_min) - ng|]
    to the Nelder-Mead optimizer with start 12.0, tolerance 1e-3 and at
    most 200 iterations, and returns the first component of the point the
    optimizer reports, whether or not the optimizer reports success. *)
Theorem find_m_min_smooth {E : Externals}
    (s : store) (self : loc) (i : instance) (ng0 top : R)
    (calls : list R) (vals : list R) (res : OptimizeResult) (x : R) :
  s !! self = Some i ->
  sharp_cut (hod (params i)) = false ->
  max_density (params i) = Ok top ->
  ~ top < ng0 ->
  minimize (model_value (solver_copy (params i)) ng0) 12 (1 / 1000)
    "Nelder-Mead" 200 = (calls, inl res) ->
  map_result (model_value (solver_copy (params i)) ng0) calls = Ok vals ->
  getitem (res_x res) 0 = Ok x ->
  (find_m_min self ng0 s).1 = Ok x
  /\ forall m, model_value (solver_copy (params i)) ng0 m
       = (let cp := with_hod_params {["M_min" := m]}
                      (with_ng None (solver_copy (params i))) in
          let? integrand := mass_weighted cp (n_tot cp) in
          let? dx := dlnM cp in
          Ok (Rabs (simps_dx integrand dx "avg" - ng0))).
Proof.
  intros Hs Hsharp Hmax Hge Hmin Hcalls Hx.
  split; [|reflexivity].
  rewrite (proj1 (find_m_min_run self ng0 s i Hs)).
  unfold max_density in Hmax. unfold find_m_min_value.
  rewrite Hsharp in *.
  destruct (mass_weighted _ _) as [ig|]; simpl in *; [|discriminate].
  rewrite Hmax. simpl.
  destruct (Rlt_dec top ng0) as [Hbad|_]; [contradiction|].
  rewrite Hmin, Hcalls. simpl. exact Hx.
Qed.

(** ** The toy instance, evaluated *)

Lemma toy_copy_M (sharp : bool) (g : option R) :
  M (solver_copy (Toy.params0 sharp g)) = [Toy.m0; Toy.m1].
Proof. apply (toy_M _ sharp); reflexivity. Qed.

Lemma toy_copy_integrand (sharp : bool) (g : option R) :
  mass_weighted (solver_copy (Toy.params0 sharp g))
    (n_tot (solver_copy (Toy.params0 sharp g)))
  = Ok [Toy.m0 * / Toy.m0 * 1; Toy.m1 * / Toy.m1 * 1].
Proof.
  unfold mass_weighted, dndm, n_tot. rewrite toy_copy_M. reflexivity.
Qed.

Lemma toy_copy_dlnM (sharp : bool) (g : option R) :
  dlnM (solver_copy (Toy.params0 sharp g)) = Ok (ln Toy.m1 - ln Toy.m0).
Proof. unfold dlnM. rewrite toy_copy_M. reflexivity. Qed.

Lemma ln_10_gt_1 : 1 < ln 10.
Proof.
  rewrite <- (ln_exp 1) at 1. apply ln_increasing; [apply exp_pos|].
  pose proof exp_le_3. lra.
Qed.

Lemma toy_dx : ln Toy.m1 - ln Toy.m0 = 1 / 100 * ln 10.
Proof.
  unfold Toy.m0, Toy.m1, Rpower. rewrite !ln_exp. lra.
Qed.

Lemma toy_unit (m : R) : 0 < m -> m * / m * 1 = 1.
Proof. intros H. field. lra. Qed.

Lemma toy_sharp_total :
  0 + (ln Toy.m1 - ln Toy.m0)
      * (Toy.m0 * / Toy.m0 * 1 + Toy.m1 * / Toy.m1 * 1) / 2
  = 1 / 100 * ln 10.
Proof.
  destruct toy_masses_pos as [H0 H1].
  rewrite (toy_unit _ H0), (toy_unit _ H1), toy_dx. lra.
Qed.

Lemma toy_smooth_total :
  fold_right Rplus 0 [Toy.m0 * / Toy.m0 * 1; Toy.m1 * / Toy.m1 * 1]
  * (ln Toy.m1 - ln Toy.m0)
  = 2 / 100 * ln 10.
Proof.
  destruct toy_masses_pos as [H0 H1]. simpl.
  rewrite (toy_unit _ H0), (toy_unit _ H1), toy_dx. lra.
Qed.

Lemma find_m_min_sharp_cut_witness :
  exists y, (find_m_min 1%positive (1 / 1000) (Toy.store0 true None)).1 = Ok y.
Proof.
  destruct (find_m_min_sharp_cut (Toy.store0 true None) 1%positive
              (Toy.object0 true None) (1 / 1000)
              [Toy.m0 * / Toy.m0 * 1; Toy.m1 * / Toy.m1 * 1]
              (ln Toy.m1 - ln Toy.m0)
              (0 + (ln Toy.m1 - ln Toy.m0)
                   * (Toy.m0 * / Toy.m0 * 1 + Toy.m1 * / Toy.m1 * 1) / 2))
    as (_ & ind & _ & _ & _ & Hrun & _).
  - reflexivity.
  - reflexivity.
  - apply toy_copy_integrand.
  - apply toy_copy_dlnM.
  - reflexivity.
  - rewrite toy_sharp_total. pose proof ln_10_gt_1. lra.
  - eexists. rewrite Hrun. reflexivity.
Defined.

Lemma toy_max_density_sharp (g : option R) :
  max_density (Toy.params0 true g)
  = Ok (0 + (ln Toy.m1 - ln Toy.m0)
            * (Toy.m0 * / Toy.m0 * 1 + Toy.m1 * / Toy.m1 * 1) / 2).
Proof.
  unfold max_density. rewrite toy_copy_integrand. cbn [rbind].
  change (sharp_cut (hod (Toy.params0 true g))) with true. cbv iota.
  rewrite toy_copy_dlnM. reflexivity.
Qed.

Lemma ln_10_lt_10 : ln 10 < 10.
Proof.
  rewrite <- (ln_exp 10) at 2. apply ln_increasing; [lra|].
  pose proof (exp_ineq1 10). lra.
Qed.

Lemma find_m_min_raises_NGException_iff_witness :
  (find_m_min 1%positive 10 (Toy.store0 true None)).1
  = Raise (NGException
             (0 + (ln Toy.m1 - ln Toy.m0)
                  * (Toy.m0 * / Toy.m0 * 1 + Toy.m1 * / Toy.m1 * 1) / 2)).
Proof.
  apply (proj2 (find_m_min_raises_NGException_iff (Toy.store0 true None)
                  1%positive (Toy.object0 true None) 10 _ eq_refl)).
  split.
  - apply toy_max_density_sharp.
  - rewrite toy_sharp_total. pose proof ln_10_lt_10. lra.
Defined.

Lemma toy_model_value (g : option R) (ng0 m : R) :
  model_value (solver_copy (Toy.params0 false g)) ng0 m
  = Ok (Rabs (fold_right Rplus 0
                [Toy.m0 * / Toy.m0 * 1; Toy.m1 * / Toy.m1 * 1]
              * (ln Toy.m1 - ln Toy.m0) - ng0)).
Proof.
  unfold model_value, mass_weighted, dlnM, dndm, n_tot.
  rewrite (toy_M _ false) by reflexivity. reflexivity.
Qed.

Lemma toy_max_density_smooth (g : option R) :
  max_density (Toy.params0 false g)
  = Ok (fold_right Rplus 0 [Toy.m0 * / Toy.m0 * 1; Toy.m1 * / Toy.m1 * 1]
        * (ln Toy.m1 - ln Toy.m0)).
Proof.
  unfold max_density. rewrite toy_copy_integrand. simpl.
  unfold smooth_max_density. rewrite toy_copy_M. reflexivity.
Qed.

Lemma find_m_min_smooth_witness :
  (find_m_min 1%positive (1 / 1000) (Toy.store0 false None)).1 = Ok 12
  /\ res_success (Build_OptimizeResult [12] false 200) = false.
Proof.
  split; [|reflexivity].
  apply (find_m_min_smooth (Toy.store0 false None) 1%positive
           (Toy.object0 false None) (1 / 1000)
           (fold_right Rplus 0 [Toy.m0 * / Toy.m0 * 1; Toy.m1 * / Toy.m1 * 1]
            * (ln Toy.m1 - ln Toy.m0))
           [12]
           [Rabs (fold_right Rplus 0
                    [Toy.m0 * / Toy.m0 * 1; Toy.m1 * / Toy.m1 * 1]
                  * (ln Toy.m1 - ln Toy.m0) - 1 / 1000)]
           (Build_OptimizeResult [12] false 200) 12).
  - reflexivity.
  - reflexivity.
  - apply toy_max_density_smooth.
  - rewrite toy_smooth_total. pose proof ln_10_gt_1. lra.
  - reflexivity.
  - simpl. rewrite toy_model_value. reflexivity.
  - reflexivity.
Defined.

(** ** The window of the sharp-cutoff branch on twenty masses *)

Ltac decide_gt :=
  repeat match goal with
         | |- context [Rgt_dec ?a ?b] =>
             first [ destruct (Rgt_dec a b); [exfalso; lra|]
                   | destruct (Rgt_dec a b); [|exfalso; lra] ]
         end.

Lemma toy_window_code :
  @sharp_cut_mmin Toy.externals Toy.masses20 Toy.flat20 Toy.target20
  = Ok (INR 8 / ln 10).
Proof.
  pose proof ln_10_gt_1 as Hl.
  unfold sharp_cut_mmin, Toy.masses20, Toy.flat20, Toy.target20.
  cbn [seq map getitem nth_error rbind].
  simpl INR. unfold Rpower. rewrite !ln_exp.
  replace ((178 / 10 + 1 * (1 / 100)) * ln 10
           - (178 / 10 + 0 * (1 / 100)) * ln 10)
    with (1 / 100 * ln 10) by lra.
  cbn [repeat reversed rev app cumtrapz cumtrapz_from getlast List.last rbind].
  destruct (Rlt_dec _ _); [exfalso; lra|].
  cbn [first_index_gt]. decide_gt.
  reflexivity.
Qed.

Lemma toy_window_four_each_side :
  @sharp_cut_mmin_four_each_side Toy.externals Toy.masses20 Toy.flat20
    Toy.target20
  = Ok (INR 9 / ln 10).
Proof.
  pose proof ln_10_gt_1 as Hl.
  unfold sharp_cut_mmin_four_each_side, Toy.masses20, Toy.flat20,
    Toy.target20.
  cbn [seq map getitem nth_error rbind].
  simpl INR. unfold Rpower. rewrite !ln_exp.
  replace ((178 / 10 + 1 * (1 / 100)) * ln 10
           - (178 / 10 + 0 * (1 / 100)) * ln 10)
    with (1 / 100 * ln 10) by lra.
  cbn [repeat reversed rev app cumtrapz cumtrapz_from getlast List.last rbind].
  destruct (Rlt_dec _ _); [exfalso; lra|].
  cbn [first_index_gt]. decide_gt.
  reflexivity.
Qed.

(** The claim C4 as stated fails: on twenty masses with the crossing at
    index 10 the code fits the spline through the eight entries 6..13,
    not through the nine entries 6..14 that four points on each side of
    the crossing would give. *)
Lemma sharp_cut_window_is_not_four_each_side :
  @sharp_cut_mmin Toy.externals Toy.masses20 Toy.flat20 Toy.target20
  <> @sharp_cut_mmin_four_each_side Toy.externals Toy.masses20 Toy.flat20
       Toy.target20.
Proof.
  rewrite toy_window_code, toy_window_four_each_side. intros [= H].
  pose proof ln_10_gt_1 as Hl. simpl in H.
  assert (Hi : ln 10 * / ln 10 = 1) by (apply Rinv_r; lra).
  unfold Rdiv in H. nra.
Qed.

(** ** The projection integrator *)

Lemma wp_prop_in_place {E : Externals} {A} name (body : HaloModel -> result A)
    (s0 : store) self p low (s : store) Q :
  in_place s0 self p low s ->
  (forall s', in_place s0 self p
                (match body p with Ok _ => low ∪ {[name]} | Raise _ => low end)
                s' ->
     Q (body p) s') ->
  wp (prop name body self) s Q.
Proof.
  intros Hip HQ. pose proof Hip as [(m & Hs & Hm) Hf Hd].
  unfold wp, prop, bind, get_params, lift, modify, ret. rewrite Hs. simpl.
  destruct (body p) as [v|e]; simpl.
  - rewrite Hs. simpl. apply HQ. constructor.
    + eexists. rewrite lookup_insert_eq. split; [reflexivity|set_solver].
    + intros l Hl. rewrite lookup_insert_ne by auto. auto.
    + rewrite dom_insert_L, <- Hd.
      assert (self ∈ dom s) by (apply elem_of_dom; eauto). set_solver.
  - apply HQ. exact Hip.
Qed.

Lemma in_place_weaken {E : Externals} (s0 : store) self p low low' (s : store) :
  in_place s0 self p low s -> low' ⊆ low -> in_place s0 self p low' s.
Proof.
  intros [(m & Hs & Hm) Hf Hd] Hsub. constructor; auto.
  exists m. split; [exact Hs|set_solver].
Qed.

Lemma in_place_start {E : Externals} (s0 : store) self i0 :
  s0 !! self = Some i0 -> in_place s0 self (params i0) (memo i0) s0.
Proof.
  intros Hs. destruct i0 as [p m]. constructor; auto.
  exists m. split; [exact Hs|set_solver].
Qed.

Lemma wp_projected_corr_gal {E : Externals} self (s0 : store) i0
    (Q : result array -> store -> Prop) :
  s0 !! self = Some i0 ->
  (forall s', in_place s0 self (params i0)
                (memo i0 ∪ {["dndm"]} ∪ {["matter_power"]} ∪ {["r"]}) s' ->
     Q (projected_corr_gal_value (params i0)) s') ->
  wp (projected_corr_gal self) s0 Q.
Proof.
  intros Hs HQ. unfold projected_corr_gal, projected_corr_gal_value in *.
  apply wp_bind. eapply wp_prop_in_place; [apply in_place_start; exact Hs|].
  intros s1 H1. unfold total in *. cbn beta iota in *.
  apply wp_bind. eapply wp_prop_in_place; [exact H1|].
  intros s2 H2. cbn beta iota in *.
  apply wp_bind. eapply wp_prop_in_place; [exact H2|].
  intros s3 H3. cbn beta iota in *.
  apply wp_bind. eapply wp_prop_in_place; [exact H3|].
  intros s4 H4.
  assert (H4' : in_place s0 self (params i0)
                  (memo i0 ∪ {["dndm"]} ∪ {["matter_power"]} ∪ {["r"]}) s4).
  { destruct (corr_gal (params i0)); eapply in_place_weaken; eauto; set_solver. }
  clear H4.
  destruct (corr_gal (params i0)) as [cg|e]; simpl in *; [|auto].
  apply wp_bind. apply wp_lift.
  destruct (loglog_fit (r (params i0)) cg) as [fit|e]; simpl in *; [|auto].
  apply wp_lift. auto.
Qed.

Lemma map_result_Ok {A B} (f : A -> result B) (xs : list A) (ys : list B) :
  map_result f xs = Ok ys ->
  length ys = length xs
  /\ forall k d d', (k < length xs)%nat -> f (nth k xs d) = Ok (nth k ys d').
Proof.
  revert ys. induction xs as [|x xs IH]; simpl; intros ys.
  - intros [= <-]. split; [reflexivity|]. intros; lia.
  - destruct (f x) as [y|] eqn:Hx; simpl; [|discriminate].
    destruct (map_result f xs) as [ys'|]; simpl; [|discriminate].
    intros [= <-]. destruct (IH ys' eq_refl) as [Hl Hk].
    split; [simpl; congruence|].
    intros [|k] d d' Hlt; simpl; [exact Hx|]. apply Hk. lia.
Qed.

Lemma nth_map_in {A} (f : A -> R) (l : list A) (k : nat) (d : A) :
  (k < length l)%nat -> nth k (map f l) 0 = f (nth k l d).
Proof.
  intros Hk. rewrite (nth_indep _ 0 (f d)) by (rewrite length_map; exact Hk).
  apply map_nth.
Qed.

Lemma r_pos {E : Externals} (p : HaloModel) (k : nat) :
  (k < length (r p))%nat -> 0 < nth k (r p) 0.
Proof.
  unfold r, rlog. cbv iota. rewrite length_map. intros Hk.
  rewrite (nth_map_in exp _ k 0) by exact Hk. apply exp_pos.
Qed.

Lemma linspace_length a b n : length (linspace a b n) = n.
Proof. unfold linspace. rewrite length_map, length_seq. reflexivity. Qed.

Lemma linspace_nth a b n k :
  (k < n)%nat ->
  nth k (linspace a b n) 0 = a + INR k * ((b - a) / INR (n - 1)).
Proof.
  intros Hk. unfold linspace.
  rewrite (nth_map_in _ _ k O) by (rewrite length_seq; exact Hk).
  rewrite seq_nth by exact Hk. reflexivity.
Qed.

Lemma logspace_nth a b n k :
  (k < n)%nat ->
  nth k (logspace a b n) 0
  = Rpower 10 (a + INR k * ((b - a) / INR (n - 1))).
Proof.
  intros Hk. unfold logspace.
  rewrite (nth_map_in _ _ k 0) by (rewrite linspace_length; exact Hk).
  rewrite linspace_nth by exact Hk. reflexivity.
Qed.

Lemma Rpower_10_log10 x : 0 < x -> Rpower 10 (log10 x) = x.
Proof.
  intros Hx. unfold Rpower, log10.
  replace (ln x / ln 10 * ln 10) with (ln x).
  - apply exp_ln. exact Hx.
  - pose proof ln_10_gt_1. field. lra.
Qed.

Lemma y_grid_spec (a rp : R) :
  0 < rp ->
  length (y_grid a rp) = 1000%nat
  /\ (0 < min_y_of a rp -> nth 0 (y_grid a rp) 0 = min_y_of a rp)
  /\ nth 999 (y_grid a rp) 0 = Rmax 80 (5 * rp) - rp.
Proof.
  intros Hrp. unfold y_grid. split; [|split].
  - unfold logspace. rewrite length_map, linspace_length. reflexivity.
  - intros Hm. rewrite logspace_nth by lia.
    replace (log10 (min_y_of a rp) + INR 0 * _) with (log10 (min_y_of a rp))
      by (simpl; ring).
    apply Rpower_10_log10. exact Hm.
  - rewrite logspace_nth by lia.
    change (1000 - 1)%nat with 999%nat.
    assert (Hn : INR 999 <> 0) by (apply not_0_INR; lia).
    replace (log10 (min_y_of a rp)
             + INR 999 * ((log10 (Rmax 80 (5 * rp) - rp)
                           - log10 (min_y_of a rp)) / INR 999))
      with (log10 (Rmax 80 (5 * rp) - rp)) by (field; exact Hn).
    apply Rpower_10_log10.
    pose proof (Rmax_l 80 (5 * rp)). pose proof (Rmax_r 80 (5 * rp)).
    destruct (Rlt_dec rp 80); lra.
Qed.

Lemma projected_corr_gal_run {E : Externals} self (s : store) i :
  s !! self = Some i ->
  (projected_corr_gal self s).1 = projected_corr_gal_value (params i)
  /\ in_place s self (params i)
       (memo i ∪ {["dndm"]} ∪ {["matter_power"]} ∪ {["r"]})
       (projected_corr_gal self s).2.
Proof.
  intros Hs.
  apply (wp_projected_corr_gal self s i
           (fun r0 s' => r0 = projected_corr_gal_value (params i)
                         /\ in_place s self (params i)
                              (memo i ∪ {["dndm"]} ∪ {["matter_power"]}
                               ∪ {["r"]}) s') Hs).
  intros s' H. split; [reflexivity|exact H].
Qed.

Lemma Ok_inj {A} (a b : A) : Ok a = Ok b -> a = b.
Proof. intros [= H]. exact H. Qed.

Lemma projected_at_Ok {E : Externals} (fit : Spline) (rp v : R) :
  projected_at fit rp = Ok v ->
  exists ydiff,
    getitem (spl_derivatives fit (ln rp)) 1 = Ok ydiff
    /\ v = simps_x
             (projection_integrand fit rp (y_grid (Rmax (13 / 10) (- ydiff)) rp))
             (y_grid (Rmax (13 / 10) (- ydiff)) rp) * 2.
Proof.
  unfold projected_at, slope_at.
  destruct (getitem (spl_derivatives fit (ln rp)) 1) as [ydiff|];
    cbn [rbind]; [|discriminate].
  intros H. exists ydiff. split; [reflexivity|].
  symmetry. apply Ok_inj. exact H.
Qed.

Lemma get_slope_frac_pos (a : R) : 1 < a -> 0 < _get_slope_frac a.
Proof.
  intros Ha. unfold _get_slope_frac.
  set (q := sqrt (5 - 8 * a + 4 * a ^ 2)).
  assert (Hrad : 0 <= 5 - 8 * a + 4 * a ^ 2) by nra.
  assert (Hq2 : q * q = 5 - 8 * a + 4 * a ^ 2) by (apply sqrt_sqrt; exact Hrad).
  assert (Hq0 : 0 <= q) by apply sqrt_pos.
  assert (Hq : 2 * (a - 1) < q) by nra.
  assert (Hpoly : 0 < 7 - 2 * a ^ 3 + 3 * q + a ^ 2 * (9 + q)
                      - a * (13 + 3 * q)).
  { assert (Hc : 0 < a ^ 2 - 3 * a + 3) by nra.
    assert (Hm : 2 * (a - 1) * (a ^ 2 - 3 * a + 3)
                 < q * (a ^ 2 - 3 * a + 3))
      by (apply Rmult_lt_compat_r; assumption).
    nra. }
  apply Rdiv_lt_0_compat.
  - apply Rmult_lt_0_compat; [apply Rmult_lt_0_compat|].
    + apply exp_pos.
    + exact Hpoly.
    + apply exp_pos.
  - apply Rmult_lt_0_compat; nra.
Qed.

Lemma mask_pos_kept_snd (c a : array) :
  mask_pos c a
  = map snd (List.filter
               (fun cr : R * R => if Rgt_dec (fst cr) 0 then true else false)
               (combine c a)).
Proof.
  revert a. induction c as [|x c IH]; intros [|y a]; try reflexivity.
  cbn [mask_pos combine List.filter fst].
  destruct (Rgt_dec x 0); cbn [map snd]; rewrite IH; reflexivity.
Qed.

Lemma mask_pos_kept_fst (c a : array) :
  length c = length a ->
  mask_pos c c
  = map fst (List.filter
               (fun cr : R * R => if Rgt_dec (fst cr) 0 then true else false)
               (combine c a)).
Proof.
  revert a. induction c as [|x c IH]; intros [|y a] H.
  - reflexivity.
  - discriminate.
  - discriminate.
  - injection H as H. cbn [mask_pos combine List.filter fst].
    destruct (Rgt_dec x 0); cbn [map fst]; rewrite (IH a H); reflexivity.
Qed.

Lemma loglog_fit_kept {E : Externals} (rr cg : array) :
  length cg = length rr ->
  loglog_fit rr cg
  = ext (spline
           (map (fun cr : R * R => ln (snd cr))
              (List.filter
                 (fun cr : R * R => if Rgt_dec (fst cr) 0 then true else false)
                 (combine cg rr)))
           (map (fun cr : R * R => ln (fst cr))
              (List.filter
                 (fun cr : R * R => if Rgt_dec (fst cr) 0 then true else false)
                 (combine cg rr)))
           3).
Proof.
  intros Hlen. unfold loglog_fit.
  rewrite (mask_pos_kept_snd cg rr), (mask_pos_kept_fst cg rr Hlen).
  rewrite !map_map. reflexivity.
Qed.

(** C7: for positive [rmin] and [rmax] and a correlation function given on
    the radius grid, a returned [projected_corr_gal] has one entry per
    radius.  The spline [fit] is the cubic one through the points
    [(log r, log corr_gal)] at the radii where [corr_gal] is positive.
    At every radius [rp] the negated slope of [fit] is clamped from below
    at 1.3; the closed-form factor of [_get_slope_frac] at that slope,
    written out below, is positive, and times [0.005 ** 2 * rp] it is the
    positive start of 1000 logarithmically spaced values of [y] that end
    at [max(80, 5 rp) - rp]; the entry is twice the Simpson integral over
    them of the interpolated correlation at [y + rp] times
    [(y + rp) / sqrt((y + 2 rp) y)]. *)
Theorem projected_corr_gal_pointwise {E : Externals}
    (s : store) (self : loc) (i : instance) (ps : array) :
  s !! self = Some i ->
  0 < rmin (params i) ->
  0 < rmax (params i) ->
  (forall cg, corr_gal (params i) = Ok cg ->
              length cg = length (r (params i))) ->
  (projected_corr_gal self s).1 = Ok ps ->
  exists cg fit,
    corr_gal (params i) = Ok cg
    /\ (let kept :=
          List.filter
            (fun cr : R * R => if Rgt_dec (fst cr) 0 then true else false)
            (combine cg (r (params i))) in
        spline (map (fun cr : R * R => ln (snd cr)) kept)
               (map (fun cr : R * R => ln (fst cr)) kept) 3
        = inl fit)
    /\ length ps = length (r (params i))
    /\ forall k, (k < length (r (params i)))%nat ->
         let rp := nth k (r (params i)) 0 in
         0 < rp
         /\ exists ydiff,
              getitem (spl_derivatives fit (ln rp)) 1 = Ok ydiff
              /\ let a := Rmax (13 / 10) (- ydiff) in
                 let q := sqrt (5 - 8 * a + 4 * a ^ 2) in
                 let frac :=
                   Rpower 2 (1 + 2 * a)
                   * (7 - 2 * a ^ 3 + 3 * q + a ^ 2 * (9 + q)
                      - a * (13 + 3 * q))
                   * Rpower ((1 + q) / (a - 1)) (- 2 * a)
                   / ((a - 1) ^ 2 * (-1 + 2 * a + q)) in
                 let min_y := frac * (5 / 1000) ^ 2 * rp in
                 let top := Rmax 80 (5 * rp) - rp in
                 let y := logspace (log10 min_y) (log10 top) 1000 in
                 13 / 10 <= a
                 /\ (a = 13 / 10 \/ a = - ydiff)
                 /\ 0 < frac
                 /\ 0 < min_y
                 /\ length y = 1000%nat
                 /\ (forall j, (j < 1000)%nat ->
                       nth j y 0
                       = Rpower 10
                           (ln min_y / ln 10
                            + INR j * ((ln top / ln 10 - ln min_y / ln 10)
                                       / INR 999)))
                 /\ nth 0 y 0 = min_y
                 /\ nth 999 y 0 = top
                 /\ nth k ps 0
                    = simps_x
                        (map (fun yy =>
                                exp (spl_call fit (ln (yy + rp))) * (yy + rp)
                                / sqrt ((yy + 2 * rp) * yy)) y) y * 2.
Proof.
  intros Hs Hrmin Hrmax Hgrid Hrun.
  rewrite (proj1 (projected_corr_gal_run self s i Hs)) in Hrun.
  unfold projected_corr_gal_value in Hrun.
  destruct (corr_gal (params i)) as [cg|] eqn:Hcg; simpl in Hrun;
    [|discriminate].
  destruct (loglog_fit (r (params i)) cg) as [fit|] eqn:Hfit; simpl in Hrun;
    [|discriminate].
  exists cg, fit. split; [reflexivity|]. split.
  { rewrite (loglog_fit_kept _ _ (Hgrid cg eq_refl)) in Hfit.
    cbv zeta.
    destruct (spline _ _ 3) as [f|tag]; cbn [ext] in Hfit;
      [|discriminate].
    apply Ok_inj in Hfit. rewrite Hfit. reflexivity. }
  destruct (map_result_Ok _ _ _ Hrun) as [Hlen Hk].
  split; [exact Hlen|].
  intros k Hlt rp. specialize (Hk k 0 0 Hlt). fold rp in Hk.
  assert (Hrp : 0 < rp) by (apply r_pos; exact Hlt).
  split; [exact Hrp|].
  destruct (projected_at_Ok fit rp _ Hk) as (ydiff & Hy & Hv).
  exists ydiff. split; [exact Hy|].
  intros a q frac min_y top y.
  assert (Ha : 13 / 10 <= a) by apply Rmax_l.
  assert (Hfrac : 0 < frac) by (apply (get_slope_frac_pos a); lra).
  assert (Hmin : 0 < min_y).
  { unfold min_y. apply Rmult_lt_0_compat; [|exact Hrp].
    apply Rmult_lt_0_compat; [exact Hfrac|lra]. }
  destruct (y_grid_spec a rp Hrp) as (Hl & Hfirst & Hlast).
  split; [exact Ha|].
  split.
  { unfold a, Rmax. destruct (Rle_dec (13 / 10) (- ydiff)); auto. }
  split; [exact Hfrac|]. split; [exact Hmin|]. split; [exact Hl|].
  split.
  { intros j Hj. unfold y. rewrite logspace_nth by exact Hj. reflexivity. }
  split; [apply Hfirst; exact Hmin|]. split; [exact Hlast|].
  exact Hv.
Qed.

Lemma toy_projected_corr_gal :
  exists v0 v1,
    (projected_corr_gal 1%positive (Toy.store0 true (Some 1))).1
    = Ok [v0; v1].
Proof.
  rewrite (proj1 (projected_corr_gal_run 1%positive
                    (Toy.store0 true (Some 1)) (Toy.object0 true (Some 1))
                    eq_refl)).
  do 2 eexists. reflexivity.
Qed.

Lemma toy_corr_gal :
  corr_gal (Toy.params0 true (Some 1)) = Ok [1 / 1 ^ 2 + 2; 1 / 1 ^ 2 + 2].
Proof. reflexivity. Qed.

Lemma projected_corr_gal_pointwise_witness :
  exists ps cg fit,
    (projected_corr_gal 1%positive (Toy.store0 true (Some 1))).1 = Ok ps
    /\ corr_gal (Toy.params0 true (Some 1)) = Ok cg
    /\ (let kept :=
          List.filter
            (fun cr : R * R => if Rgt_dec (fst cr) 0 then true else false)
            (combine cg (r (Toy.params0 true (Some 1)))) in
        Toy.spline0 (map (fun cr : R * R => ln (snd cr)) kept)
                    (map (fun cr : R * R => ln (fst cr)) kept) 3
        = inl fit)
    /\ length ps = 2%nat
    /\ 0 < nth 0 (r (Toy.params0 true (Some 1))) 0.
Proof.
  destruct toy_projected_corr_gal as (v0 & v1 & Hrun).
  destruct (projected_corr_gal_pointwise (Toy.store0 true (Some 1))
              1%positive (Toy.object0 true (Some 1)) [v0; v1])
    as (cg & fit & Hcg & Hfit & Hlen & Hk).
  - reflexivity.
  - simpl. lra.
  - simpl. lra.
  - intros cg0 Hcg0.
    change (corr_gal (Toy.params0 true (Some 1)) = Ok cg0) in Hcg0.
    rewrite toy_corr_gal in Hcg0. apply Ok_inj in Hcg0.
    rewrite <- Hcg0. reflexivity.
  - exact Hrun.
  - exists [v0; v1], cg, fit.
    split; [exact Hrun|]. split; [exact Hcg|]. split; [exact Hfit|].
    split; [reflexivity|].
    exact (proj1 (Hk 0%nat ltac:(simpl; lia))).
Defined.

(** C6 (amended): the minimum-mass solver creates one new object, a copy
    of [self], and changes nothing else: [self] keeps its parameters, its
    cache only gains entries, every other object is untouched.  The
    projection integrator creates no object: it reads [self] in place,
    whose parameters are kept and whose cache only gains entries. *)
Theorem solver_copies_projection_in_place {E : Externals}
    (s : store) (self : loc) (i : instance) (ng0 : R) :
  s !! self = Some i ->
  (let s1 := (find_m_min self ng0 s).2 in
   let c := fresh (dom s) in
   c ∉ dom s
   /\ dom s1 = dom s ∪ {[c]}
   /\ (exists m, s1 !! self = Some {| params := params i; memo := m |}
                 /\ memo i ⊆ m)
   /\ (exists cp m, s1 !! c = Some {| params := cp; memo := m |})
   /\ (forall l, l <> self -> l <> c -> s1 !! l = s !! l))
  /\ (let s2 := (projected_corr_gal self s).2 in
      dom s2 = dom s
      /\ (exists m, s2 !! self = Some {| params := params i; memo := m |}
                    /\ memo i ⊆ m)
      /\ (forall l, l <> self -> s2 !! l = s !! l)).
Proof.
  intros Hs. split.
  - destruct (find_m_min_run self ng0 s i Hs) as [_ (cp & Htr)].
    destruct Htr as [Hne Hself (m & Hc) Hf Hd].
    split; [apply is_fresh|]. split; [exact Hd|]. split; [exact Hself|].
    split; [eauto|]. exact Hf.
  - destruct (projected_corr_gal_run self s i Hs) as [_ Hip].
    destruct Hip as [(m & Hm & Hsub) Hf Hd].
    split; [exact Hd|]. split; [|exact Hf].
    exists m. split; [exact Hm|set_solver].
Qed.

Lemma solver_copies_projection_in_place_witness :
  fresh (dom (Toy.store0 true (Some 1))) ∉ dom (Toy.store0 true (Some 1))
  /\ dom (projected_corr_gal 1%positive (Toy.store0 true (Some 1))).2
     = dom (Toy.store0 true (Some 1)).
Proof.
  destruct (solver_copies_projection_in_place (Toy.store0 true (Some 1))
              1%positive (Toy.object0 true (Some 1)) 1 eq_refl)
    as [(Hfresh & _) (Hdom & _)].
  split; [exact Hfresh|exact Hdom].
Defined.

(** The claim C6 as stated fails for the projection integrator: after the
    call no object exists that did not exist before, so there is no copy,
    and the cache of the caller's own object has been written. *)
Lemma projected_corr_gal_uses_live_object :
  let s0 := Toy.store0 true (Some 1) in
  let s2 := (projected_corr_gal 1%positive s0).2 in
  (forall c, c ∈ dom s2 -> c ∈ dom s0)
  /\ memo (Toy.object0 true (Some 1)) = ∅
  /\ exists i', s2 !! 1%positive = Some i' /\ "dndm" ∈ memo i'.
Proof.
  intros s0 s2.
  destruct (projected_corr_gal_run 1%positive s0
              (Toy.object0 true (Some 1)) eq_refl)
    as [_ [(m & Hm & Hsub) Hf Hd]].
  split; [|split].
  - intros c Hc. unfold s2 in Hc. rewrite Hd in Hc. exact Hc.
  - reflexivity.
  - eexists. split; [exact Hm|]. set_solver.
Qed.

(** ** [update] on the caller's object *)

Section UpdateRuns.
Context {E : Externals}.

Lemma wp_setattr_at name f l (s : store) p
    (Q : result unit -> store -> Prop) :
  obj_at s l p ->
  (forall s', obj_at s' l (f p) -> Q (Ok tt) s') ->
  wp (setattr name f l) s Q.
Proof.
  intros [m Hm] HQ. unfold wp, setattr, modify. rewrite Hm. simpl.
  apply HQ. eexists. apply lookup_insert_eq.
Qed.

Lemma wp_get_params_at l (s : store) p
    (Q : result HaloModel -> store -> Prop) :
  obj_at s l p -> Q (Ok p) s -> wp (get_params l) s Q.
Proof.
  intros [m Hm] HQ. unfold wp, get_params. rewrite Hm. exact HQ.
Qed.

Lemma wp_assign_at {A B} (o : option A) (setter : A -> result B) name w l
    (s : store) p (Q : result unit -> store -> Prop) :
  obj_at s l p ->
  (forall s', match assign_value o setter w p with
              | Ok q => obj_at s' l q -> Q (Ok tt) s'
              | Raise e => Q (Raise e) s'
              end) ->
  wp (assign o setter name w l) s Q.
Proof.
  intros Hp HQ. unfold assign, assign_value in *. destruct o as [a|].
  - apply wp_bind. apply wp_lift.
    destruct (setter a) as [v|e]; simpl in *.
    + eapply wp_setattr_at; [exact Hp|]. intros s' H'. apply HQ. exact H'.
    + apply HQ.
  - apply wp_ret. apply HQ. exact Hp.
Qed.

Ltac assign_step :=
  apply wp_bind; eapply wp_assign_at; [eassumption|];
  let s' := fresh "s" in
  intros s';
  match goal with
  | HQ : context [assign_value ?o ?st ?w ?p]
    |- context [assign_value ?o ?st ?w ?p] =>
      destruct (assign_value o st w p) as [?q|?e]; cbn [rbind] in HQ;
      [intros ?Hq | apply HQ]
  end.

Lemma wp_super_update_at l kw (s : store) p
    (Q : result unit -> store -> Prop) :
  obj_at s l p ->
  (forall s', match apply_kwargs kw p with
              | Ok q => obj_at s' l q -> Q (Ok tt) s'
              | Raise e => Q (Raise e) s'
              end) ->
  wp (super_update l kw) s Q.
Proof.
  intros Hp HQ. unfold super_update, apply_kwargs in *.
  do 12 assign_step.
  destruct (kw_hmf kw) as [k|].
  - apply wp_bind. eapply wp_get_params_at; [exact Hq10|]. cbn beta iota.
    apply wp_bind. apply wp_lift.
    destruct (ext (hmf_update k (hmf q10))) as [h|e]; cbn [rbind] in HQ;
      cbn beta iota.
    + eapply wp_setattr_at; [exact Hq10|]. intros s' H'. apply HQ. exact H'.
    + apply HQ.
  - apply wp_ret. apply HQ. exact Hq10.
Qed.

Lemma wp_update self kw (s : store) i (Q : result unit -> store -> Prop) :
  s !! self = Some i ->
  (forall s',
     match before_solve kw (params i) with
     | Ok p1 =>
         match ng p1 with
         | Some g =>
             match find_m_min_value p1 g with
             | Ok m =>
                 obj_at s' self (with_hod_params {["M_min" := m]} p1) ->
                 Q (Ok tt) s'
             | Raise e => Q (Raise e) s'
             end
         | None => obj_at s' self p1 -> Q (Ok tt) s'
         end
     | Raise e => Q (Raise e) s'
     end) ->
  wp (update self kw) s Q.
Proof.
  intros Hs HQ. unfold update, update_with, before_solve in *.
  assert (Hp : obj_at s self (params i)).
  { destruct i as [p m]. exists m. exact Hs. }
  apply wp_bind.
  assert (Hng : forall (Q' : result unit -> store -> Prop),
            (forall s', obj_at s' self (ng_after kw (params i)) ->
                        Q' (Ok tt) s') ->
            wp (match kw_ng kw with
                | Some v => setattr "ng" (with_ng v) self
                | None =>
                    match kw_hod_params kw with
                    | Some hp =>
                        match hp !! "M_min" with
                        | Some _ => setattr "ng" (with_ng None) self
                        | None => ret tt
                        end
                    | None => ret tt
                    end
                end) s Q').
  { intros Q' HQ'. unfold ng_after in HQ'.
    destruct (kw_ng kw) as [v|].
    - eapply wp_setattr_at; [exact Hp|]. exact HQ'.
    - destruct (kw_hod_params kw) as [hp|].
      + destruct (hp !! "M_min").
        * eapply wp_setattr_at; [exact Hp|]. exact HQ'.
        * apply wp_ret. apply HQ'. exact Hp.
      + apply wp_ret. apply HQ'. exact Hp. }
  apply Hng. clear Hng. intros s1 H1. cbn beta iota.
  apply wp_bind. eapply wp_super_update_at; [exact H1|]. intros s2.
  destruct (apply_kwargs kw (ng_after kw (params i))) as [p1|e];
    [|apply HQ].
  intros H2. cbn beta iota.
  apply wp_bind. eapply wp_get_params_at; [exact H2|]. cbn beta iota.
  destruct (ng p1) as [g|].
  - destruct H2 as [m2 H2].
    apply wp_bind. unfold find_m_min, recursion_limit.
    change 1000%nat with (S 999).
    eapply wp_find_m_min; [exact H2|]. intros s3 cp' Htr. simpl params.
    destruct (find_m_min_value p1 g) as [m|e]; [|apply HQ].
    destruct Htr as [_ (m3 & Hself & _) _ _ _]. simpl in Hself.
    eapply wp_setattr_at; [eexists; exact Hself|].
    intros s4 H4. apply HQ. exact H4.
  - apply wp_ret. apply HQ. exact H2.
Qed.

End UpdateRuns.

Lemma assign_value_keeps {E : Externals} {A B C} (proj : HaloModel -> C)
    (o : option A) (setter : A -> result B) (w : B -> HaloModel -> HaloModel)
    (p q : HaloModel) :
  (forall v p', proj (w v p') = proj p') ->
  assign_value o setter w p = Ok q -> proj q = proj p.
Proof.
  intros Hw. unfold assign_value. destruct o as [a|].
  - destruct (setter a) as [v|]; simpl; [|discriminate].
    intros [= <-]. apply Hw.
  - intros [= <-]. reflexivity.
Qed.

Ltac split_kwargs H :=
  unfold apply_kwargs in H;
  repeat (apply rbind_Ok in H;
          let q := fresh "q" in
          let Hq := fresh "Hq" in
          destruct H as (q & Hq & H)).

Lemma apply_kwargs_ng {E : Externals} (kw : kwargs) (p q : HaloModel) :
  apply_kwargs kw p = Ok q -> ng q = ng p.
Proof.
  intros H. split_kwargs H.
  assert (Hlast : ng q = ng q11).
  { destruct (kw_hmf kw) as [k|].
    - destruct (ext _) as [h|]; simpl in H; [|discriminate].
      injection H as <-. reflexivity.
    - injection H as <-. reflexivity. }
  repeat match goal with
         | Hq : assign_value _ _ _ _ = Ok _ |- _ =>
             apply (assign_value_keeps ng) in Hq; [|intros; reflexivity]
         end.
  congruence.
Qed.

Lemma apply_kwargs_hod_params {E : Externals} (kw : kwargs) (p q : HaloModel) :
  apply_kwargs kw p = Ok q ->
  hod_params q = match kw_hod_params kw with
                 | Some hp => hp
                 | None => hod_params p
                 end.
Proof.
  intros H. split_kwargs H.
  assert (Hlast : hod_params q = hod_params q11).
  { destruct (kw_hmf kw) as [k|].
    - destruct (ext _) as [h|]; simpl in H; [|discriminate].
      injection H as <-. reflexivity.
    - injection H as <-. reflexivity. }
  assert (Hfirst : hod_params q0 = match kw_hod_params kw with
                                   | Some hp => hp
                                   | None => hod_params p
                                   end).
  { unfold assign_value in Hq. destruct (kw_hod_params kw) as [hp|].
    - simpl in Hq. injection Hq as <-. reflexivity.
    - injection Hq as <-. reflexivity. }
  clear Hq.
  repeat match goal with
         | Hq : assign_value _ _ _ _ = Ok _ |- _ =>
             apply (assign_value_keeps hod_params) in Hq;
             [|intros; reflexivity]
         end.
  congruence.
Qed.

(** C2 (amended): after a call of [update] that returns, the object holds
    the parameters reached at line 89 with, when a target density is then
    set, [hod_params] replaced by [{"M_min": m}] for the freshly solved
    [m].  Passing [ng=g] leaves [ng = g] and the solved [M_min]; passing
    an explicit [M_min] in [hod_params] without passing [ng] leaves
    [ng = None] and the passed [hod_params]. *)
Theorem update_ng_M_min_exclusive {E : Externals}
    (s s' : store) (self : loc) (i : instance) (kw : kwargs) :
  s !! self = Some i ->
  update self kw s = (Ok tt, s') ->
  exists p1 i',
    before_solve kw (params i) = Ok p1
    /\ s' !! self = Some i'
    /\ match ng (params i') with
       | Some g => exists m, find_m_min_value p1 g = Ok m
                             /\ hod_params (params i') = {["M_min" := m]}
       | None => params i' = p1
       end
    /\ (forall g, kw_ng kw = Some (Some g) ->
          ng (params i') = Some g
          /\ exists m, find_m_min_value p1 g = Ok m
                       /\ hod_params (params i') = {["M_min" := m]})
    /\ (forall hp x, kw_ng kw = None -> kw_hod_params kw = Some hp ->
          hp !! "M_min" = Some x ->
          ng (params i') = None /\ hod_params (params i') = hp).
Proof.
  intros Hs Hrun.
  pose proof (wp_update self kw s i
    (fun r0 s0 => r0 = Ok tt ->
       exists p1 i',
         before_solve kw (params i) = Ok p1
         /\ s0 !! self = Some i'
         /\ params i' = match ng p1 with
                        | Some g =>
                            match find_m_min_value p1 g with
                            | Ok m => with_hod_params {["M_min" := m]} p1
                            | Raise _ => p1
                            end
                        | None => p1
                        end
         /\ match ng p1 with
            | Some g => is_Ok (find_m_min_value p1 g)
            | None => True
            end) Hs) as Hwp.
  unfold wp in Hwp. rewrite Hrun in Hwp. simpl in Hwp.
  destruct Hwp as (p1 & i' & Hp1 & Hi' & Hpar & Hok); [|reflexivity|].
  { intros s0. destruct (before_solve kw (params i)) as [p1|e];
      [|discriminate].
    destruct (ng p1) as [g|] eqn:Hg.
    - destruct (find_m_min_value p1 g) as [m|e] eqn:Hm; [|discriminate].
      intros [m' Hm'] _. exists p1. eexists. split; [reflexivity|].
      split; [exact Hm'|]. rewrite Hg, Hm. simpl. auto.
    - intros [m' Hm'] _. exists p1. eexists. split; [reflexivity|].
      split; [exact Hm'|]. rewrite Hg. simpl. auto. }
  exists p1, i'. split; [exact Hp1|]. split; [exact Hi'|].
  unfold before_solve in Hp1.
  pose proof (apply_kwargs_ng _ _ _ Hp1) as Hng.
  pose proof (apply_kwargs_hod_params _ _ _ Hp1) as Hhp.
  assert (Hshape :
    match ng p1 with
    | Some g => ng (params i') = Some g
                /\ exists m, find_m_min_value p1 g = Ok m
                             /\ hod_params (params i') = {["M_min" := m]}
    | None => params i' = p1
    end).
  { destruct (ng p1) as [g|] eqn:Hg; [|exact Hpar].
    destruct (find_m_min_value p1 g) as [m|e]; [|contradiction].
    rewrite Hpar. simpl. split; [exact Hg|]. eauto. }
  split; [|split].
  - destruct (ng p1) as [g|] eqn:Hg.
    + destruct Hshape as (-> & Hm). exact Hm.
    + rewrite Hshape, Hg. reflexivity.
  - intros g Hkw. unfold ng_after in Hng. rewrite Hkw in Hng. simpl in Hng.
    rewrite Hng in Hshape. exact Hshape.
  - intros hp x Hkw Hkh Hx. unfold ng_after in Hng, Hhp.
    rewrite Hkw, Hkh, Hx in Hng. simpl in Hng.
    rewrite Hkh in Hhp.
    rewrite Hng in Hshape. rewrite Hshape. split; [exact Hng|exact Hhp].
Qed.

Lemma toy_find_m_min_value_smooth (p : HaloModel (E := Toy.externals)) :
  hod_model p = Toy.hod0 false ->
  find_m_min_value p (1 / 1000) = Ok 12.
Proof.
  intros Hh. destruct p. simpl in Hh. subst.
  unfold find_m_min_value, mass_weighted, dndm, n_tot, smooth_max_density,
    model_value, dlnM.
  rewrite !(toy_M _ false) by reflexivity.
  cbn -[Rlt_dec fold_right].
  destruct (Rlt_dec _ _) as [Hbad|_].
  - exfalso. revert Hbad.
    change (foldr Rplus 0 [Toy.m0 * / Toy.m0 * 1; Toy.m1 * / Toy.m1 * 1])
      with (fold_right Rplus 0
              [Toy.m0 * / Toy.m0 * 1; Toy.m1 * / Toy.m1 * 1]).
    rewrite toy_smooth_total. pose proof ln_10_gt_1. lra.
  - unfold mass_weighted, dndm, n_tot, dlnM.
    rewrite !(toy_M _ false) by reflexivity. reflexivity.
Qed.

Lemma toy_update_returns (kw : kwargs) (p1 : HaloModel) (g : R) :
  before_solve kw (Toy.params0 false None) = Ok p1 ->
  ng p1 = Some g ->
  find_m_min_value p1 g = Ok 12 ->
  update 1%positive kw (Toy.store0 false None)
  = (Ok tt, (update 1%positive kw (Toy.store0 false None)).2)
  /\ exists i', (update 1%positive kw (Toy.store0 false None)).2 !! 1%positive
                = Some i'
                /\ params i' = with_hod_params {["M_min" := 12]} p1.
Proof.
  intros Hp Hg Hm.
  pose proof (wp_update 1%positive kw (Toy.store0 false None)
                (Toy.object0 false None)
                (fun r0 s' => r0 = Ok tt
                   /\ exists i', s' !! 1%positive = Some i'
                       /\ params i' = with_hod_params {["M_min" := 12]} p1)
                eq_refl) as Hwp.
  unfold wp in Hwp.
  destruct (update 1%positive kw (Toy.store0 false None)) as [r0 s'].
  simpl in *.
  destruct Hwp as [-> Hi'].
  - intros s0. change (params (Toy.object0 false None))
      with (Toy.params0 false None). rewrite Hp, Hg, Hm.
    intros [m Hm']. split; [reflexivity|]. eexists. split; [exact Hm'|].
    reflexivity.
  - split; [reflexivity|exact Hi'].
Qed.

Lemma update_ng_M_min_exclusive_witness :
  exists i',
    (update 1%positive Toy.kw_ng_only (Toy.store0 false None)).2 !! 1%positive
    = Some i'
    /\ ng (params i') = Some (1 / 1000).
Proof.
  destruct (toy_update_returns Toy.kw_ng_only
              (with_ng (Some (1 / 1000)) (Toy.params0 false None))
              (1 / 1000) eq_refl eq_refl
              (toy_find_m_min_value_smooth
                 (with_ng (Some (1 / 1000)) (Toy.params0 false None))
                 eq_refl)) as [Hrun _].
  destruct (update_ng_M_min_exclusive (Toy.store0 false None) _ 1%positive
              (Toy.object0 false None) Toy.kw_ng_only eq_refl Hrun)
    as (p1 & i' & _ & Hi' & _ & Hng & _).
  exists i'. split; [exact Hi'|]. apply Hng. reflexivity.
Defined.

(** The claim C2 as stated fails: when one call passes both [ng] and an
    explicit [M_min], [ng] is not cleared; the passed [M_min = 13] is
    replaced by the solved one. *)
Lemma update_with_ng_and_M_min_keeps_ng :
  exists s' i',
    update 1%positive Toy.kw_ng_and_M_min (Toy.store0 false None)
    = (Ok tt, s')
    /\ s' !! 1%positive = Some i'
    /\ ng (params i') = Some (1 / 1000)
    /\ hod_params (params i') = {["M_min" := 12]}.
Proof.
  destruct (toy_update_returns Toy.kw_ng_and_M_min
              (with_hod_params {["M_min" := 13]}
                 (with_ng (Some (1 / 1000)) (Toy.params0 false None)))
              (1 / 1000) eq_refl eq_refl
              (toy_find_m_min_value_smooth
                 (with_hod_params {["M_min" := 13]}
                    (with_ng (Some (1 / 1000)) (Toy.params0 false None)))
                 eq_refl))
    as [Hrun (i' & Hi' & Hpar)].
  eexists. exists i'. split; [exact Hrun|]. split; [exact Hi'|].
  rewrite Hpar. split; reflexivity.
Qed.

(** ** Construction with a target density *)

Lemma init_params_ng {E : Externals} (a : init_args) (p : HaloModel) :
  init_params a = Ok p -> ng p = a_ng a.
Proof.
  unfold init_params. intros H.
  do 11 (apply rbind_Ok in H;
         let q := fresh "q" in
         let Hq := fresh "Hq" in
         destruct H as (q & Hq & H)).
  injection H as <-. unfold Param.ng in *. simpl. congruence.
Qed.

Lemma wp_init {E : Externals} (a : init_args) (s : store)
    (Q : result loc -> store -> Prop) :
  (forall l s',
     match init_params a with
     | Ok p =>
         match a_ng a with
         | Some g =>
             match find_m_min_value p g with
             | Ok m =>
                 obj_at s' l (with_hod_params {["M_min" := m]} p) ->
                 Q (Ok l) s'
             | Raise e => Q (Raise e) s'
             end
         | None => obj_at s' l p -> Q (Ok l) s'
         end
     | Raise e => Q (Raise e) s'
     end) ->
  wp (__init__ a) s Q.
Proof.
  intros HQ. unfold __init__.
  apply wp_bind. apply wp_lift.
  destruct (init_params a) as [p|e]; [|apply (HQ 1%positive)].
  apply wp_bind. unfold wp at 1, alloc. cbn [fst snd].
  set (l := fresh (dom s)). specialize (HQ l).
  set (s1 := <[l := {| params := p; memo := ∅ |}]> s).
  assert (H1 : s1 !! l = Some {| params := p; memo := ∅ |})
    by apply lookup_insert_eq.
  destruct (a_ng a) as [g|].
  - apply wp_bind. unfold find_m_min, recursion_limit.
    change 1000%nat with (S 999).
    eapply wp_find_m_min; [exact H1|]. intros s2 cp Htr.
    cbn [params] in *.
    destruct (find_m_min_value p g) as [m|e]; [|apply HQ].
    destruct Htr as [_ (m2 & Hself & _) _ _ _]. cbn [params] in Hself.
    apply wp_bind. eapply wp_setattr_at; [eexists; exact Hself|].
    intros s3 H3. apply wp_ret. apply HQ. exact H3.
  - apply wp_ret. apply HQ. eexists. exact H1.
Qed.

(** The constructor leaves the same invariant as [update]: built with a
    target density, the new object holds that density and the minimum
    mass solved from it. *)
Lemma init_with_ng_solves_M_min {E : Externals}
    (a : init_args) (s s' : store) (l : loc) (g : R) :
  a_ng a = Some g ->
  __init__ a s = (Ok l, s') ->
  exists p m i',
    init_params a = Ok p
    /\ find_m_min_value p g = Ok m
    /\ s' !! l = Some i'
    /\ ng (params i') = Some g
    /\ hod_params (params i') = {["M_min" := m]}.
Proof.
  intros Hg Hrun.
  pose proof (wp_init a s
    (fun r0 s0 => forall l0, r0 = Ok l0 ->
       exists p m i',
         init_params a = Ok p
         /\ find_m_min_value p g = Ok m
         /\ s0 !! l0 = Some i'
         /\ ng (params i') = Some g
         /\ hod_params (params i') = {["M_min" := m]})) as Hwp.
  unfold wp in Hwp. rewrite Hrun in Hwp. cbn [fst snd] in Hwp.
  apply Hwp; [|reflexivity]. clear Hwp Hrun.
  intros l1 s1. destruct (init_params a) as [p|e] eqn:Hp;
    [|discriminate].
  rewrite Hg.
  destruct (find_m_min_value p g) as [m|e] eqn:Hm; [|discriminate].
  intros [m1 H1] l0 [= <-].
  exists p, m. eexists. split; [reflexivity|]. split; [exact Hm|].
  split; [exact H1|]. cbn [params hod_params ng with_hod_params].
  split; [|reflexivity].
  rewrite (init_params_ng a p Hp). exact Hg.
Qed.

(** * Further properties of the driver *)

(** ** The radius grid and the mass grid *)

Lemma INR_lt_pred (k n : nat) : (k < n)%nat -> (1 < n)%nat -> INR k <= INR (n - 1).
Proof. intros Hk Hn. apply le_INR. lia. Qed.



Lemma arange_length (start stop step : R) :
  length (arange start stop step)
  = Z.to_nat (Zceil ((stop - start) / step)).
Proof. unfold arange. rewrite length_map, length_seq. reflexivity. Qed.

Lemma arange_nth (start stop step : R) (k : nat) :
  (k < length (arange start stop step))%nat ->
  nth k (arange start stop step) 0 = start + INR k * step
  /\ (0 < step -> start + INR k * step < stop).
Proof.
  intros Hk. pose proof Hk as Hk'. rewrite arange_length in Hk'.
  split.
  - unfold arange. rewrite (nth_map_in _ _ k O) by (rewrite length_seq; exact Hk').
    rewrite seq_nth by exact Hk'. reflexivity.
  - intros Hs.
    pose proof (Zceil_bound ((stop - start) / step)) as [Hb _].
    assert (Hz : (Z.of_nat k < Zceil ((stop - start) / step))%Z) by lia.
    assert (Hr : INR k <= IZR (Zceil ((stop - start) / step)) - 1).
    { rewrite INR_IZR_INZ, <- minus_IZR. apply IZR_le. lia. }
    assert (Hx : INR k < (stop - start) / step) by lra.
    apply (Rmult_lt_compat_r step) in Hx; [|exact Hs].
    unfold Rdiv in Hx. rewrite Rmult_assoc, Rinv_l in Hx by lra. lra.
Qed.

(** The mass grid (line 193): entry [k] is [10 ** (mmin + k * dlog10m)];
    with a positive step every mass is at least [10 ** mmin] and strictly
    below [10 ** 18], and the grid is strictly increasing. *)
Theorem M_grid {E : Externals} (p : HaloModel) :
  0 < dlog10m p ->
  length (M p)
  = Z.to_nat (Zceil ((18 - mmin (hod p)) / dlog10m p))
  /\ forall k, (k < length (M p))%nat ->
       nth k (M p) 0 = Rpower 10 (mmin (hod p) + INR k * dlog10m p)
       /\ Rpower 10 (mmin (hod p)) <= nth k (M p) 0
       /\ nth k (M p) 0 < Rpower 10 18
       /\ forall j, (j < k)%nat -> nth j (M p) 0 < nth k (M p) 0.
Proof.
  intros Hd.
  assert (Hlen : length (M p) = length (arange (mmin (hod p)) 18 (dlog10m p)))
    by (unfold M; apply length_map).
  assert (Hnth : forall k, (k < length (M p))%nat ->
            nth k (M p) 0 = Rpower 10 (mmin (hod p) + INR k * dlog10m p)).
  { intros k Hk. unfold M.
    rewrite (nth_map_in _ _ k 0) by (rewrite <- Hlen; exact Hk).
    rewrite (proj1 (arange_nth _ _ _ k ltac:(rewrite <- Hlen; exact Hk))).
    reflexivity. }
  split; [rewrite Hlen; apply arange_length|].
  intros k Hk. split; [apply Hnth; exact Hk|].
  rewrite (Hnth k Hk).
  assert (H10 : 1 < 10) by lra.
  assert (Hk0 : 0 <= INR k) by apply pos_INR.
  split; [|split].
  - destruct (Req_dec (INR k) 0) as [Hz|Hz].
    + rewrite Hz, Rmult_0_l, Rplus_0_r. lra.
    + left. apply Rpower_lt; [exact H10|]. nra.
  - apply Rpower_lt; [exact H10|].
    apply (proj2 (arange_nth _ _ _ k ltac:(rewrite <- Hlen; exact Hk))).
    exact Hd.
  - intros j Hj. rewrite (Hnth j) by lia.
    apply Rpower_lt; [exact H10|].
    assert (INR j < INR k) by (apply lt_INR; exact Hj). nra.
Qed.

Lemma M_grid_witness :
  length (M (Toy.params0 true None)) = 2%nat.
Proof.
  destruct (M_grid (Toy.params0 true None)) as [Hlen _].
  - simpl. lra.
  - rewrite (toy_M _ true) by reflexivity. reflexivity.
Defined.

Lemma ln_Rpower_10 (x : R) : ln (Rpower 10 x) = x * ln 10.
Proof. unfold Rpower. apply ln_exp. Qed.

Lemma dlnM_step {E : Externals} (p : HaloModel) :
  (2 <= length (M p))%nat -> dlnM p = Ok (dlog10m p * ln 10).
Proof.
  intros Hge. unfold dlnM, getitem.
  assert (Hlen : length (M p) = length (arange (mmin (hod p)) 18 (dlog10m p)))
    by (unfold M; apply length_map).
  assert (H1 : nth_error (M p) 1
               = Some (Rpower 10 (mmin (hod p) + INR 1 * dlog10m p))).
  { unfold M. rewrite nth_error_map.
    rewrite (nth_error_nth' _ 0) by (rewrite <- Hlen; lia).
    rewrite (proj1 (arange_nth _ _ _ 1%nat ltac:(rewrite <- Hlen; lia))).
    reflexivity. }
  assert (H0 : nth_error (M p) 0
               = Some (Rpower 10 (mmin (hod p) + INR 0 * dlog10m p))).
  { unfold M. rewrite nth_error_map.
    rewrite (nth_error_nth' _ 0) by (rewrite <- Hlen; lia).
    rewrite (proj1 (arange_nth _ _ _ 0%nat ltac:(rewrite <- Hlen; lia))).
    reflexivity. }
  rewrite H1, H0. simpl. f_equal. rewrite !ln_Rpower_10. simpl INR. ring.
Qed.

Lemma getitem_short (a : array) (k : nat) :
  (length a <= k)%nat -> getitem a k = Raise IndexError.
Proof.
  intros H. unfold getitem.
  destruct (nth_error a k) as [x|] eqn:Hk; [|reflexivity].
  exfalso. assert (k < length a)%nat; [|lia].
  apply nth_error_Some. congruence.
Qed.

Lemma dlnM_short {E : Externals} (p : HaloModel) :
  (length (M p) < 2)%nat -> dlnM p = Raise IndexError.
Proof.
  intros H. unfold dlnM. rewrite getitem_short by lia. reflexivity.
Qed.

(** The step [np.log(M[1]) - np.log(M[0])] handed to every quadrature:
    for a step [dlog10m] other than zero it is [dlog10m * log(10)] when
    the grid has at least two masses, and raises [IndexError] otherwise.
    (With a zero step NumPy raises while building the grid.) *)
Theorem dlnM_spec {E : Externals} (p : HaloModel) :
  dlog10m p <> 0 ->
  dlnM p = if (2 <=? length (M p))%nat
           then Ok (dlog10m p * ln 10)
           else Raise IndexError.
Proof.
  intros _. destruct (Nat.leb_spec 2 (length (M p))) as [Hge|Hlt].
  - apply dlnM_step. exact Hge.
  - apply dlnM_short. exact Hlt.
Qed.

Lemma dlnM_spec_witness :
  dlnM (Toy.params0 true None) = Ok (1 / 100 * ln 10)
  /\ dlnM Toy.params_top = Raise IndexError.
Proof.
  split.
  - rewrite (dlnM_spec (Toy.params0 true None)) by (simpl; lra).
    rewrite (toy_M _ true) by reflexivity. reflexivity.
  - rewrite (dlnM_spec Toy.params_top) by (simpl; lra).
    destruct (Nat.leb_spec 2 (length (M Toy.params_top))) as [Hge|_];
      [|reflexivity].
    exfalso. assert (Hs : (length (M Toy.params_top) <= 1)%nat); [|lia].
    unfold M. rewrite length_map, arange_length.
    replace ((18 - mmin (hod Toy.params_top)) / dlog10m Toy.params_top)
      with 0 by (simpl; field).
    pose proof (Zceil_bound 0) as [Hb _].
    assert ((Zceil 0 < 2)%Z) by (apply lt_IZR; lra). lia.
Defined.

(** ** The projection integrator's grid *)

(** For every slope above 1 the correction factor of line 493 is strictly
    positive, and the slope is clamped at 1.3.  So at every positive
    radius the integration grid of line 484 starts at
    [_get_slope_frac(a) * 0.005 ** 2 * rp], which is positive, ends at
    [max(80, 5 rp) - rp], and every [y] on it is positive: the square
    root in the integrand is taken of a positive number. *)
Theorem y_grid_positive (ydiff rp : R) :
  0 < rp ->
  let a := Rmax (13 / 10) (- ydiff) in
  0 < _get_slope_frac a
  /\ 0 < min_y_of a rp
  /\ nth 0 (y_grid a rp) 0 = min_y_of a rp
  /\ nth 999 (y_grid a rp) 0 = Rmax 80 (5 * rp) - rp
  /\ forall k, (k < 1000)%nat ->
       0 < nth k (y_grid a rp) 0
       /\ 0 < (nth k (y_grid a rp) 0 + 2 * rp) * nth k (y_grid a rp) 0.
Proof.
  intros Hrp a.
  assert (Ha : 1 < a) by (pose proof (Rmax_l (13 / 10) (- ydiff)); unfold a; lra).
  assert (Hmin : 0 < min_y_of a rp).
  { unfold min_y_of. pose proof (get_slope_frac_pos a Ha).
    apply Rmult_lt_0_compat; [|exact Hrp].
    apply Rmult_lt_0_compat; [assumption|lra]. }
  destruct (y_grid_spec a rp Hrp) as (Hl & Hfirst & Hlast).
  split; [apply get_slope_frac_pos; exact Ha|].
  split; [exact Hmin|]. split; [apply Hfirst; exact Hmin|].
  split; [exact Hlast|].
  intros k Hk.
  assert (Hy : 0 < nth k (y_grid a rp) 0).
  { unfold y_grid. rewrite logspace_nth by exact Hk. apply exp_pos. }
  split; [exact Hy|]. apply Rmult_lt_0_compat; lra.
Qed.

Lemma y_grid_positive_witness :
  0 < min_y_of (Rmax (13 / 10) (- 0)) 1
  /\ nth 999 (y_grid (Rmax (13 / 10) (- 0)) 1) 0 = Rmax 80 (5 * 1) - 1.
Proof.
  destruct (y_grid_positive 0 1) as (_ & H1 & _ & H3 & _).
  - lra.
  - split; [exact H1|exact H3].
Defined.

(** The knots of the log-log spline of line 473, for positive [rmin] and
    [rmax] and a correlation function given on the radius grid: the
    spline is fitted through [(log r, log corr_gal)] at exactly the radii
    where [corr_gal] is positive, as many abscissas as ordinates, and
    both logarithms are taken of positive numbers. *)
Theorem loglog_knots {E : Externals} (p : HaloModel) (cg : array) :
  0 < rmin p ->
  0 < rmax p ->
  length cg = length (r p) ->
  let kept :=
    List.filter
      (fun cr : R * R => if Rgt_dec (fst cr) 0 then true else false)
      (combine cg (r p)) in
  loglog_fit (r p) cg
  = ext (spline (map (fun cr : R * R => ln (snd cr)) kept)
                (map (fun cr : R * R => ln (fst cr)) kept) 3)
  /\ length (map (fun cr : R * R => ln (snd cr)) kept)
     = length (map (fun cr : R * R => ln (fst cr)) kept)
  /\ Forall (fun cr : R * R => 0 < fst cr /\ 0 < snd cr) kept
  /\ forall k, (k < length cg)%nat ->
       (In (nth k cg 0, nth k (r p) 0) kept <-> nth k cg 0 > 0).
Proof.
  intros Hrmin Hrmax Hlen kept. split; [|split; [|split]].
  - apply loglog_fit_kept. exact Hlen.
  - rewrite !length_map. reflexivity.
  - apply List.Forall_forall. intros [c rr] Hin.
    apply List.filter_In in Hin. destruct Hin as [Hin Hc].
    cbn [fst snd] in *. split.
    + destruct (Rgt_dec c 0); [lra|discriminate].
    + apply in_combine_r in Hin.
      apply In_nth with (d := 0) in Hin. destruct Hin as (k & Hk & <-).
      apply r_pos. exact Hk.
  - intros k Hk. unfold kept. rewrite List.filter_In. cbn [fst].
    split.
    + intros [_ Hc]. destruct (Rgt_dec (nth k cg 0) 0); [assumption|].
      discriminate.
    + intros Hc. split.
      * rewrite <- (combine_nth cg (r p) k 0 0 Hlen).
        apply nth_In. rewrite length_combine, <- Hlen. lia.
      * destruct (Rgt_dec (nth k cg 0) 0); [reflexivity|contradiction].
Qed.

Lemma loglog_knots_witness :
  @loglog_fit Toy.externals (r (Toy.params0 true None)) [1; -1]
  = ext (Toy.spline0
           (map (fun cr : R * R => ln (snd cr))
              (List.filter
                 (fun cr : R * R => if Rgt_dec (fst cr) 0 then true else false)
                 (combine [1; -1] (r (Toy.params0 true None)))))
           (map (fun cr : R * R => ln (fst cr))
              (List.filter
                 (fun cr : R * R => if Rgt_dec (fst cr) 0 then true else false)
                 (combine [1; -1] (r (Toy.params0 true None)))))
           3)
  /\ (In (nth 0 [1; -1] 0, nth 0 (r (Toy.params0 true None)) 0)
        (List.filter
           (fun cr : R * R => if Rgt_dec (fst cr) 0 then true else false)
           (combine [1; -1] (r (Toy.params0 true None))))
      <-> nth 0 [1; -1] 0 > 0).
Proof.
  destruct (loglog_knots (Toy.params0 true None) [1; -1])
    as (H1 & _ & _ & H4).
  - simpl. lra.
  - simpl. lra.
  - reflexivity.
  - split; [exact H1|]. apply (H4 0%nat). simpl. lia.
Defined.

(** ** Parameter setters *)

(** The halo-exclusion setter (line 147) stores [None] as the mode
    ["None"] and any other accepted value unchanged; what it stores is
    accepted unchanged when assigned again. *)
Theorem halo_exclusion_idempotent (val v : pyval) :
  Param.halo_exclusion val = Ok v ->
  Param.halo_exclusion v = Ok v
  /\ (val = PyNone -> v = PyStr "None")
  /\ (val <> PyNone -> v = val).
Proof.
  assert (Hstr : forall w, Param.halo_exclusion w = Ok v ->
            w <> PyNone -> v = w /\ Param.halo_exclusion v = Ok v).
  { intros w Hw Hn. unfold Param.halo_exclusion in Hw.
    destruct w; try congruence;
      match type of Hw with
      | (if negb ?b then _ else _) = _ =>
          destruct b eqn:Hin; simpl in Hw; [|discriminate]
      end;
      injection Hw as <-; (split; [reflexivity|]);
      unfold Param.halo_exclusion; rewrite Hin; reflexivity. }
  intros H. destruct val;
    try (destruct (Hstr _ H ltac:(discriminate)) as [-> Hv];
         split; [exact Hv|split; congruence]).
  injection H as <-. split; [reflexivity|]. split; congruence.
Qed.

Lemma halo_exclusion_idempotent_witness :
  Param.halo_exclusion (PyStr "None") = Ok (PyStr "None").
Proof.
  apply (proj1 (halo_exclusion_idempotent PyNone (PyStr "None") eq_refl)).
Defined.

(** ** The cumulative integral of the sharp-cutoff branch *)

Lemma sum_app (l : array) (a : R) :
  fold_right Rplus 0 (l ++ [a]) = fold_right Rplus 0 l + a.
Proof. induction l as [|x l IH]; simpl; [ring|rewrite IH; ring]. Qed.

Lemma sum_rev (l : array) : fold_right Rplus 0 (rev l) = fold_right Rplus 0 l.
Proof.
  induction l as [|x l IH]; simpl; [reflexivity|].
  rewrite sum_app, IH. ring.
Qed.

Lemma last_app_one (l : array) (a d : R) : List.last (l ++ [a]) d = a.
Proof. apply last_last. Qed.

Lemma hd_rev_last (l : array) : hd 0 (rev l) = List.last l 0.
Proof.
  induction l as [|x l IH] using rev_ind; [reflexivity|].
  rewrite rev_app_distr, last_app_one. reflexivity.
Qed.

Lemma last_rev_hd (l : array) : List.last (rev l) 0 = hd 0 l.
Proof.
  destruct l as [|x l]; [reflexivity|]. simpl. apply last_app_one.
Qed.

Lemma cumtrapz_from_total (dx : R) (y : array) :
  forall acc, (2 <= length y)%nat ->
  exists top,
    getlast (cumtrapz_from acc y dx) = Ok top
    /\ top = acc + dx * (fold_right Rplus 0 y - (hd 0 y + List.last y 0) / 2).
Proof.
  induction y as [|a y IH]; intros acc Hlen; [simpl in Hlen; lia|].
  destruct y as [|b t]; [simpl in Hlen; lia|].
  destruct t as [|c t'].
  - eexists. split; [reflexivity|]. simpl. field.
  - destruct (IH (acc + dx * (b + a) / 2)) as (top & Htop & Heq);
      [simpl; lia|].
    exists top. split.
    + change (cumtrapz_from acc (a :: b :: c :: t') dx)
        with ((acc + dx * (b + a) / 2)
              :: cumtrapz_from (acc + dx * (b + a) / 2) (b :: c :: t') dx).
      destruct (cumtrapz_from (acc + dx * (b + a) / 2) (b :: c :: t') dx)
        as [|z zs] eqn:Hz; [discriminate|].
      simpl in Htop. injection Htop as <-.
      simpl getlast. f_equal. apply last_cons.
    + rewrite Heq.
      change (List.last (a :: b :: c :: t') 0)
        with (List.last (b :: c :: t') 0).
      simpl fold_right. simpl hd. field.
Qed.

Lemma cumtrapz_total_aux (y : array) (dx : R) :
  (2 <= length y)%nat ->
  exists top,
    getlast (cumtrapz (reversed y) dx) = Ok top
    /\ getlast (cumtrapz y dx) = Ok top
    /\ top = dx * (fold_right Rplus 0 y - (hd 0 y + List.last y 0) / 2).
Proof.
  intros Hlen. unfold cumtrapz, reversed.
  destruct (cumtrapz_from_total dx (rev y) 0) as (t1 & H1 & E1);
    [rewrite length_rev; exact Hlen|].
  destruct (cumtrapz_from_total dx y 0 Hlen) as (t2 & H2 & E2).
  rewrite sum_rev, hd_rev_last, last_rev_hd in E1.
  exists t1. split; [exact H1|].
  split; [rewrite H2; f_equal; lra|lra].
Qed.

Lemma cumtrapz_from_sorted (dx : R) (y : array) :
  0 <= dx -> Forall (fun x => 0 <= x) y ->
  forall acc,
    Forall (fun z => acc <= z) (cumtrapz_from acc y dx)
    /\ forall j k, (j <= k)%nat ->
         (k < length (cumtrapz_from acc y dx))%nat ->
         nth j (cumtrapz_from acc y dx) 0 <= nth k (cumtrapz_from acc y dx) 0.
Proof.
  intros Hdx Hy. induction Hy as [|a y Ha Hy IH]; intros acc.
  - split; [constructor|]. simpl. intros; lia.
  - destruct y as [|b t].
    + split; [constructor|]. simpl. intros; lia.
    + change (cumtrapz_from acc (a :: b :: t) dx)
        with ((acc + dx * (b + a) / 2)
              :: cumtrapz_from (acc + dx * (b + a) / 2) (b :: t) dx).
      assert (Hb : 0 <= b) by (inversion Hy; assumption).
      assert (Hstep : acc <= acc + dx * (b + a) / 2) by nra.
      destruct (IH (acc + dx * (b + a) / 2)) as [Hge Hsorted].
      set (rest := cumtrapz_from (acc + dx * (b + a) / 2) (b :: t) dx) in *.
      split.
      * constructor; [exact Hstep|].
        eapply List.Forall_impl; [|exact Hge]. simpl. intros z Hz. lra.
      * intros j k Hjk Hk. cbn [length] in Hk. destruct k as [|k].
        -- assert (j = 0)%nat by lia. subst j. lra.
        -- destruct j as [|j]; cbn [nth].
           ++ rewrite List.Forall_forall in Hge. apply Hge.
              apply nth_In. lia.
           ++ apply Hsorted; lia.
Qed.

Lemma last_nth_length (a : array) (x : R) :
  List.last a x = nth (length a) (x :: a) 0.
Proof.
  revert x. induction a as [|y a IH]; intros x; [reflexivity|].
  rewrite last_cons, IH. reflexivity.
Qed.

Lemma getlast_nth (a : array) (top : R) :
  getlast a = Ok top -> (0 < length a)%nat /\ top = nth (length a - 1) a 0.
Proof.
  destruct a as [|x a]; [discriminate|]. unfold getlast. intros [= <-].
  split; [simpl; lia|]. cbn [length]. rewrite Nat.sub_succ, Nat.sub_0_r.
  apply last_nth_length.
Qed.

Lemma first_index_gt_none (a : array) (t : R) :
  Forall (fun z => ~ z > t) a -> first_index_gt a t = Raise IndexError.
Proof.
  induction 1 as [|x a Hx Ha IH]; simpl; [reflexivity|].
  destruct (Rgt_dec x t); [contradiction|]. rewrite IH. reflexivity.
Qed.

Lemma Forall_rev_nonneg (y : array) :
  Forall (fun x => 0 <= x) y -> Forall (fun x => 0 <= x) (rev y).
Proof.
  intros H. apply List.Forall_forall. intros x Hx. apply in_rev in Hx.
  rewrite List.Forall_forall in H. auto.
Qed.

(** With a non-negative integrand and a non-negative step the cumulative
    integral of line 400 never decreases, so the index found at line 405
    is a clean crossing: no entry before it exceeds [ng] and every entry
    from it on does. *)
Theorem crossing_index_splits (integrand : array) (dx ng0 : R) (ind : nat) :
  Forall (fun x => 0 <= x) integrand ->
  0 <= dx ->
  first_index_gt (cumtrapz (reversed integrand) dx) ng0 = Ok ind ->
  let integral := cumtrapz (reversed integrand) dx in
  (forall j k, (j <= k)%nat -> (k < length integral)%nat ->
     nth j integral 0 <= nth k integral 0)
  /\ (ind < length integral)%nat
  /\ (forall k, (k < ind)%nat -> ~ nth k integral 0 > ng0)
  /\ (forall k, (ind <= k)%nat -> (k < length integral)%nat ->
        nth k integral 0 > ng0).
Proof.
  intros Hy Hdx Hind integral.
  destruct (cumtrapz_from_sorted dx (rev integrand) Hdx
              (Forall_rev_nonneg _ Hy) 0) as [_ Hsorted].
  destruct (first_index_gt_spec _ _ _ Hind) as (Hlt & Hgt & Hbefore).
  split; [exact Hsorted|]. split; [exact Hlt|]. split; [exact Hbefore|].
  intros k Hk Hlen. pose proof (Hsorted ind k Hk Hlen) as Hle.
  unfold integral, cumtrapz, reversed in *. lra.
Qed.

Lemma crossing_index_splits_witness :
  first_index_gt (cumtrapz (reversed [1; 1; 1]) 1) (1 / 2) = Ok 0%nat
  /\ forall k, (0 <= k)%nat ->
       (k < length (cumtrapz (reversed [1%R; 1%R; 1%R]) 1))%nat ->
       nth k (cumtrapz (reversed [1; 1; 1]) 1) 0 > 1 / 2.
Proof.
  assert (Hi : first_index_gt (cumtrapz (reversed [1; 1; 1]) 1) (1 / 2)
               = Ok 0%nat).
  { simpl. destruct (Rgt_dec _ _) as [_|Hn]; [reflexivity|].
    exfalso. apply Hn. lra. }
  split; [exact Hi|].
  destruct (crossing_index_splits [1; 1; 1] 1 (1 / 2) 0) as (_ & _ & _ & H).
  - repeat constructor; lra.
  - lra.
  - exact Hi.
  - exact H.
Defined.

(** ** The density the solver can reach *)

(** Under a sharp cutoff the largest density the solver can reach, the
    total it compares with [ng] at line 402, is the composite trapezoid
    rule over the grid of step 0.01: [0.01 * log(10)] times the sum of
    the integrand less half its two end values.  Integrating in reversed
    mass order does not change it. *)
Theorem max_density_sharp_trapezoid {E : Externals}
    (p : HaloModel) (integrand : array) :
  sharp_cut (hod p) = true ->
  mass_weighted (solver_copy p) (n_tot (solver_copy p)) = Ok integrand ->
  (2 <= length (M (solver_copy p)))%nat ->
  (2 <= length integrand)%nat ->
  max_density p
  = Ok (1 / 100 * ln 10
        * (fold_right Rplus 0 integrand
           - (hd 0 integrand + List.last integrand 0) / 2))
  /\ getlast (cumtrapz integrand (1 / 100 * ln 10)) = max_density p.
Proof.
  intros Hs Hmw HM Hl. unfold max_density. rewrite Hmw, Hs. cbn [rbind].
  rewrite (dlnM_step _ HM). cbn [rbind].
  change (dlog10m (solver_copy p)) with (1 / 100).
  destruct (cumtrapz_total_aux integrand (1 / 100 * ln 10) Hl)
    as (top & H1 & H2 & ->).
  rewrite H1, H2. split; reflexivity.
Qed.

Lemma max_density_sharp_trapezoid_witness :
  max_density (Toy.params0 true None)
  = Ok (1 / 100 * ln 10
        * (fold_right Rplus 0 [Toy.m0 * / Toy.m0 * 1; Toy.m1 * / Toy.m1 * 1]
           - (hd 0 [Toy.m0 * / Toy.m0 * 1; Toy.m1 * / Toy.m1 * 1]
              + List.last [Toy.m0 * / Toy.m0 * 1; Toy.m1 * / Toy.m1 * 1] 0)
             / 2)).
Proof.
  apply (max_density_sharp_trapezoid (Toy.params0 true None)).
  - reflexivity.
  - apply toy_copy_integrand.
  - rewrite toy_copy_M. simpl. lia.
  - simpl. lia.
Defined.

Lemma cumtrapz_le_last (y : array) (dx top : R) :
  0 <= dx -> Forall (fun x => 0 <= x) y ->
  getlast (cumtrapz y dx) = Ok top ->
  Forall (fun z => ~ z > top) (cumtrapz y dx).
Proof.
  intros Hdx Hy Hl.
  destruct (cumtrapz_from_sorted dx y Hdx Hy 0) as [_ Hs].
  apply getlast_nth in Hl. destruct Hl as [Hpos ->].
  apply List.Forall_forall. intros z Hz.
  apply In_nth with (d := 0) in Hz. destruct Hz as (k & Hk & <-).
  unfold cumtrapz in *.
  pose proof (Hs k (length (cumtrapz_from 0 y dx) - 1)%nat
                ltac:(lia) ltac:(lia)).
  lra.
Qed.

(** Under a sharp cutoff with a non-negative integrand, asking for exactly
    the largest reachable density is an error: the total is not below
    [ng], so no [NGException] is raised (line 402), and no entry of the
    cumulative integral exceeds [ng], so the index lookup of line 405
    raises [IndexError]. *)
Theorem sharp_cut_target_equals_total {E : Externals}
    (s : store) (self : loc) (i : instance) (g : R) (integrand : array) :
  s !! self = Some i ->
  sharp_cut (hod (params i)) = true ->
  mass_weighted (solver_copy (params i)) (n_tot (solver_copy (params i)))
  = Ok integrand ->
  Forall (fun x => 0 <= x) integrand ->
  max_density (params i) = Ok g ->
  (find_m_min self g s).1 = Raise IndexError.
Proof.
  intros Hs Hsh Hmw Hpos Hmax.
  rewrite (proj1 (find_m_min_run self g s i Hs)).
  unfold find_m_min_value. rewrite Hmw, Hsh. cbn [rbind].
  unfold max_density in Hmax. rewrite Hmw, Hsh in Hmax. cbn [rbind] in Hmax.
  destruct (dlnM (solver_copy (params i))) as [dx|e] eqn:Hdx;
    [|discriminate]. cbn [rbind] in Hmax.
  destruct (dlnM_Ok _ _ Hdx) as (m1 & m0 & H1 & H0 & Heq).
  assert (Hdx0 : 0 <= dx).
  { destruct (getitem_nth _ _ _ H1) as [Hlen _].
    rewrite dlnM_step in Hdx by lia. apply Ok_inj in Hdx. subst dx.
    change (dlog10m (solver_copy (params i))) with (1 / 100).
    pose proof ln_10_gt_1. nra. }
  unfold sharp_cut_mmin. rewrite H1, H0. cbn [rbind]. rewrite <- Heq, Hmax.
  cbn [rbind]. destruct (Rlt_dec g g) as [Hlt|_]; [lra|].
  rewrite first_index_gt_none; [reflexivity|].
  apply cumtrapz_le_last; [exact Hdx0| |exact Hmax].
  apply Forall_rev_nonneg. exact Hpos.
Qed.

Lemma sharp_cut_target_equals_total_witness :
  (find_m_min 1%positive
     (0 + (ln Toy.m1 - ln Toy.m0)
          * (Toy.m0 * / Toy.m0 * 1 + Toy.m1 * / Toy.m1 * 1) / 2)
     (Toy.store0 true None)).1
  = Raise IndexError.
Proof.
  apply (sharp_cut_target_equals_total (Toy.store0 true None) 1%positive
           (Toy.object0 true None) _
           [Toy.m0 * / Toy.m0 * 1; Toy.m1 * / Toy.m1 * 1]).
  - reflexivity.
  - reflexivity.
  - apply toy_copy_integrand.
  - destruct toy_masses_pos as [H0 H1].
    repeat constructor; rewrite toy_unit by assumption; lra.
  - apply toy_max_density_sharp.
Defined.

(** ** A mass grid with fewer than two masses *)

Lemma M_short {E : Externals} (p : HaloModel) :
  0 < dlog10m p -> 18 - dlog10m p <= mmin (hod p) ->
  (length (M p) <= 1)%nat.
Proof.
  intros Hd Hm. unfold M. rewrite length_map, arange_length.
  set (x := (18 - mmin (hod p)) / dlog10m p).
  assert (Hx : x <= 1).
  { assert (Hxd : x * dlog10m p = 18 - mmin (hod p))
      by (unfold x; field; lra).
    nra. }
  pose proof (Zceil_bound x) as [Hb _].
  assert (Hz : (Zceil x < 2)%Z) by (apply lt_IZR; lra).
  lia.
Qed.

(** When the floor of the occupation model lies within one grid step of
    [10 ** 18] the mass grid has at most one mass, and the integrated
    mean galaxy density cannot be formed: reading [M[1]] for the step of
    the quadrature (line 250) raises [IndexError]. *)
Theorem short_mass_grid_raises {E : Externals} (p : HaloModel) :
  0 < dlog10m p ->
  18 - dlog10m p <= mmin (hod p) ->
  length (dndm p) = length (M p) ->
  length (n_tot p) = length (M p) ->
  ng p = None ->
  (length (M p) <= 1)%nat
  /\ mean_gal_den p = Raise IndexError.
Proof.
  intros Hd Hm Hl1 Hl2 Hng.
  pose proof (M_short p Hd Hm) as Hshort. split; [exact Hshort|].
  destruct (mass_weighted_pointwise p (n_tot p) Hl1 Hl2) as (ig & Hig & _).
  unfold mean_gal_den. rewrite Hng, Hig. cbn [rbind].
  rewrite dlnM_short by lia. reflexivity.
Qed.

Lemma short_mass_grid_raises_witness :
  (length (M Toy.params_top) <= 1)%nat
  /\ mean_gal_den Toy.params_top = Raise IndexError.
Proof.
  apply (short_mass_grid_raises Toy.params_top).
  - simpl. lra.
  - simpl. lra.
  - exact (length_map _ _).
  - exact (length_map _ _).
  - reflexivity.
Defined.

(** The solver on such a grid: when the occupation model built with
    [M_min = 8] has its floor within 0.01 of 18, the working copy's grid
    has at most one mass and [_find_m_min] raises [IndexError] at line
    400 (sharp cutoff) or line 430 (smooth cutoff), whatever the target. *)
Theorem find_m_min_short_grid {E : Externals}
    (s : store) (self : loc) (i : instance) (g : R) :
  s !! self = Some i ->
  1799 / 100 <= mmin (hod (solver_copy (params i))) ->
  length (dndm (solver_copy (params i)))
  = length (M (solver_copy (params i))) ->
  length (n_tot (solver_copy (params i)))
  = length (M (solver_copy (params i))) ->
  (find_m_min self g s).1 = Raise IndexError.
Proof.
  intros Hs Hm Hl1 Hl2.
  rewrite (proj1 (find_m_min_run self g s i Hs)).
  assert (Hshort : (length (M (solver_copy (params i))) <= 1)%nat).
  { apply M_short.
    - change (dlog10m (solver_copy (params i))) with (1 / 100). lra.
    - change (dlog10m (solver_copy (params i))) with (1 / 100). lra. }
  destruct (mass_weighted_pointwise _ _ Hl1 Hl2) as (ig & Hig & _).
  unfold find_m_min_value. rewrite Hig. cbn [rbind].
  destruct (sharp_cut (hod (params i))).
  - unfold sharp_cut_mmin. rewrite getitem_short by exact Hshort.
    reflexivity.
  - unfold smooth_max_density. rewrite getitem_short by exact Hshort.
    reflexivity.
Qed.

Lemma find_m_min_short_grid_witness :
  (find_m_min 1%positive 1 Toy.store_top).1 = Raise IndexError.
Proof.
  apply (find_m_min_short_grid Toy.store_top 1%positive Toy.object_top).
  - reflexivity.
  - simpl. lra.
  - exact (length_map _ _).
  - exact (length_map _ _).
Defined.

(** ** The one-halo term without a [lam] method *)

(** When the profile has no [lam] method (line 363) the one-halo term is
    assembled from its two parts: where the central-satellite and the
    satellite-satellite terms are defined on the radius grid, it is
    returned on that grid and equals their sum at every radius. *)
Theorem corr_gal_1h_is_sum {E : Externals}
    (p : HaloModel) (prof : Profile) (cs ss : array) :
  profile p = Ok prof ->
  has_lam prof = false ->
  _corr_gal_1h_cs p = Ok cs ->
  _corr_gal_1h_ss p = Ok ss ->
  length cs = length (r p) ->
  length ss = length (r p) ->
  exists c, corr_gal_1h p = Ok c
            /\ length c = length (r p)
            /\ forall k, (k < length (r p))%nat ->
                 nth k c 0 = nth k cs 0 + nth k ss 0.
Proof.
  intros Hp Hl H1 H2 L1 L2.
  exists (zip_with Rplus cs ss). split; [|split].
  - unfold corr_gal_1h. rewrite Hp. cbn [rbind]. rewrite Hl, H1, H2.
    cbn [rbind]. apply np_binop_same_shape. congruence.
  - rewrite zip_with_length; congruence.
  - intros k Hk. apply zip_with_nth; [congruence|lia].
Qed.

Lemma corr_gal_1h_is_sum_witness :
  exists c, corr_gal_1h Toy.params1 = Ok c
            /\ length c = length (r Toy.params1)
            /\ forall k, (k < length (r Toy.params1))%nat ->
                 nth k c 0
                 = nth k [1 / 1 ^ 2; 1 / 1 ^ 2] 0 + nth k [0; 0] 0.
Proof.
  apply (corr_gal_1h_is_sum Toy.params1 Toy.profile1); reflexivity.
Defined.

(** ** The knots of the sharp-cutoff interpolation *)

Lemma cumtrapz_from_length (dx : R) (y : array) (acc : R) :
  length (cumtrapz_from acc y dx) = (length y - 1)%nat.
Proof.
  revert acc. induction y as [|a y IH]; intros acc; [reflexivity|].
  destruct y as [|b t]; [reflexivity|].
  change (cumtrapz_from acc (a :: b :: t) dx)
    with ((acc + dx * (b + a) / 2)
          :: cumtrapz_from (acc + dx * (b + a) / 2) (b :: t) dx).
  cbn [length]. rewrite IH. cbn [length]. lia.
Qed.

Lemma getlast_cons (x v : R) (a : array) :
  getlast a = Ok v -> getlast (x :: a) = Ok v.
Proof.
  destruct a as [|y a]; [discriminate|]. unfold getlast.
  intros [= <-]. f_equal. apply last_cons.
Qed.

Lemma cumtrapz_from_prefix (dx : R) (j : nat) :
  forall (y : array) (acc : R),
    (j + 2 <= length y)%nat ->
    getlast (cumtrapz_from acc (firstn (j + 2) y) dx)
    = Ok (nth j (cumtrapz_from acc y dx) 0).
Proof.
  induction j as [|j IH]; intros y acc Hlen.
  - destruct y as [|a [|b t]]; cbn [length] in Hlen; try lia.
    destruct t; reflexivity.
  - destruct y as [|a [|b t]]; cbn [length] in Hlen; try lia.
    change (firstn (S j + 2) (a :: b :: t))
      with (a :: firstn (j + 2) (b :: t)).
    assert (Hf : firstn (j + 2) (b :: t) = b :: firstn (j + 1) t)
      by (replace (j + 2)%nat with (S (j + 1)) by lia; reflexivity).
    rewrite Hf.
    change (cumtrapz_from acc (a :: b :: firstn (j + 1) t) dx)
      with ((acc + dx * (b + a) / 2)
            :: cumtrapz_from (acc + dx * (b + a) / 2)
                 (b :: firstn (j + 1) t) dx).
    change (cumtrapz_from acc (a :: b :: t) dx)
      with ((acc + dx * (b + a) / 2)
            :: cumtrapz_from (acc + dx * (b + a) / 2) (b :: t) dx).
    cbn [nth]. apply getlast_cons. rewrite <- Hf. apply IH.
    cbn [length]. lia.
Qed.

(** The two arrays handed to the interpolation of line 426 pair up: the
    cumulative integral over the reversed integrand has as many entries
    as [c.M[::-1][1:]]; entry [j] of the masses is [c.M[n - 2 - j]], and
    entry [j] of the integral is the trapezoid integral of the integrand
    over the masses from that one up to the top of the grid.  So the
    spline interpolates the minimum mass as a function of the density of
    galaxies above it. *)
Theorem sharp_cut_knots_aligned (cM integrand : array) (dx : R) (j : nat) :
  length integrand = length cM ->
  (j + 2 <= length cM)%nat ->
  length (cumtrapz (reversed integrand) dx) = length (tail1 (reversed cM))
  /\ nth j (tail1 (reversed cM)) 0 = nth (length cM - 2 - j) cM 0
  /\ getlast (cumtrapz (skipn (length cM - 2 - j) integrand) dx)
     = Ok (nth j (cumtrapz (reversed integrand) dx) 0).
Proof.
  intros Hl Hj. unfold cumtrapz, reversed, tail1. split; [|split].
  - rewrite cumtrapz_from_length, length_skipn, !length_rev. lia.
  - rewrite nth_skipn. rewrite List.rev_nth by lia. f_equal. lia.
  - rewrite <- (cumtrapz_from_prefix dx j (rev integrand) 0)
      by (rewrite length_rev; lia).
    rewrite List.firstn_rev.
    replace (length integrand - (j + 2))%nat with (length cM - 2 - j)%nat
      by lia.
    destruct (cumtrapz_total_aux (skipn (length cM - 2 - j) integrand) dx)
      as (top & H1 & H2 & _).
    { rewrite length_skipn. lia. }
    unfold cumtrapz, reversed in H1, H2. rewrite H1, H2. reflexivity.
Qed.

Lemma sharp_cut_knots_aligned_witness :
  nth 1 (tail1 (reversed [10; 20; 30; 40])) 0 = nth 1 [10; 20; 30; 40] 0
  /\ getlast (cumtrapz (skipn 1 [1; 2; 3; 4]) 2)
     = Ok (nth 1 (cumtrapz (reversed [1; 2; 3; 4]) 2) 0).
Proof.
  destruct (sharp_cut_knots_aligned [10; 20; 30; 40] [1; 2; 3; 4] 2 1)
    as (_ & H1 & H2).
  - reflexivity.
  - simpl. lia.
  - split; [exact H1|exact H2].
Defined.

(** ** What [update] leaves behind *)

Section UpdateFrame.
Context {E : Externals}.

Lemma in_place_obj_at (s0 : store) self p low (s : store) :
  in_place s0 self p low s -> obj_at s self p.
Proof. intros [(m & Hm & _) _ _]. exists m. exact Hm. Qed.

Lemma in_place_lookup (s0 : store) self p q low (s : store) m :
  in_place s0 self p low s ->
  s !! self = Some {| params := q; memo := m |} -> p = q.
Proof. intros [(m' & Hm & _) _ _] H. rewrite Hm in H. congruence. Qed.

Lemma in_place_empty (s : store) self i :
  s !! self = Some i -> in_place s self (params i) ∅ s.
Proof.
  intros H. eapply in_place_weaken; [apply in_place_start; exact H|].
  set_solver.
Qed.

Lemma wp_setattr_ip name f (s0 : store) self p (s : store)
    (Q : result unit -> store -> Prop) :
  in_place s0 self p ∅ s ->
  (forall s', in_place s0 self (f p) ∅ s' -> Q (Ok tt) s') ->
  wp (setattr name f self) s Q.
Proof.
  intros [(m & Hm & _) Hf Hd] HQ. unfold wp, setattr, modify.
  rewrite Hm. cbn [fst snd]. apply HQ. constructor.
  - eexists. split; [apply lookup_insert_eq|set_solver].
  - intros l Hl. rewrite lookup_insert_ne by congruence. apply Hf. exact Hl.
  - rewrite dom_insert_L, Hd.
    assert (self ∈ dom s0) by (rewrite <- Hd; apply elem_of_dom; eauto).
    set_solver.
Qed.

Lemma wp_assign_ip {A B} (o : option A) (setter : A -> result B) name w
    (s0 : store) self g (s : store) (Q : result unit -> store -> Prop) :
  (forall v p, ng (w v p) = ng p) ->
  (exists q, in_place s0 self q ∅ s /\ ng q = g) ->
  (forall r s', (exists q, in_place s0 self q ∅ s' /\ ng q = g) -> Q r s') ->
  wp (assign o setter name w self) s Q.
Proof.
  intros Hw (q & Hq & Hg) HQ. unfold assign. destruct o as [a|].
  - apply wp_bind. apply wp_lift. destruct (setter a) as [v|e].
    + eapply wp_setattr_ip; [exact Hq|]. intros s' H'. apply HQ.
      exists (w v q). split; [exact H'|]. rewrite Hw. exact Hg.
    + apply HQ. eauto.
  - apply wp_ret. apply HQ. eauto.
Qed.

Lemma super_update_kept self kw (s0 : store) g (s : store) :
  (exists q, in_place s0 self q ∅ s /\ ng q = g) ->
  exists q, in_place s0 self q ∅ (super_update self kw s).2 /\ ng q = g.
Proof.
  intros H.
  change (wp (super_update self kw) s
            (fun _ s' => exists q, in_place s0 self q ∅ s' /\ ng q = g)).
  unfold super_update.
  do 12 (apply wp_bind; eapply wp_assign_ip;
         [intros; reflexivity | exact H |];
         clear H; intros [[]|?] ? H; [cbn beta iota|exact H]).
  destruct (kw_hmf kw) as [k|].
  - destruct H as (q & Hq & Hg).
    apply wp_bind.
    eapply wp_get_params_at; [eapply in_place_obj_at; exact Hq|].
    cbn beta iota.
    apply wp_bind. apply wp_lift.
    destruct (ext (hmf_update k (hmf q))) as [h|e]; cbn beta iota.
    + eapply wp_setattr_ip; [exact Hq|]. intros sf Hsf.
      eexists. split; [exact Hsf|exact Hg].
    + eauto.
  - apply wp_ret. exact H.
Qed.

Lemma wp_super_update_ip self kw (s0 : store) p (s : store)
    (Q : result unit -> store -> Prop) :
  in_place s0 self p ∅ s ->
  (forall s', match apply_kwargs kw p with
              | Ok q => in_place s0 self q ∅ s' -> Q (Ok tt) s'
              | Raise e =>
                  (exists q, in_place s0 self q ∅ s' /\ ng q = ng p) ->
                  Q (Raise e) s'
              end) ->
  wp (super_update self kw) s Q.
Proof.
  intros Hp HQ.
  destruct (super_update_kept self kw s0 (ng p) s) as (q' & Hq' & Hg');
    [eauto|].
  pose proof (wp_super_update_at self kw s p
     (fun r s' => match apply_kwargs kw p with
                  | Ok q => r = Ok tt /\ obj_at s' self q
                  | Raise e => r = Raise e
                  end)
     (in_place_obj_at _ _ _ _ _ Hp)) as Hat.
  unfold wp in *. specialize (HQ (super_update self kw s).2).
  destruct (apply_kwargs kw p) as [q|e]; cbv beta iota in Hat.
  - destruct (Hat (fun s' H => conj eq_refl H)) as [Hr [m Hm]].
    rewrite Hr. apply HQ.
    rewrite <- (in_place_lookup _ _ _ _ _ _ _ Hq' Hm). exact Hq'.
  - rewrite (Hat (fun _ => eq_refl)). apply HQ. eauto.
Qed.

Lemma wp_pop_ng_ip self kw (s0 : store) p (s : store)
    (Q : result unit -> store -> Prop) :
  in_place s0 self p ∅ s ->
  (forall s', in_place s0 self (ng_after kw p) ∅ s' -> Q (Ok tt) s') ->
  wp (match kw_ng kw with
      | Some v => setattr "ng" (with_ng v) self
      | None =>
          match kw_hod_params kw with
          | Some hp =>
              match hp !! "M_min" with
              | Some _ => setattr "ng" (with_ng None) self
              | None => ret tt
              end
          | None => ret tt
          end
      end) s Q.
Proof.
  intros Hp HQ. unfold ng_after in HQ.
  destruct (kw_ng kw) as [v|].
  - eapply wp_setattr_ip; [exact Hp|]. exact HQ.
  - destruct (kw_hod_params kw) as [hp|].
    + destruct (hp !! "M_min").
      * eapply wp_setattr_ip; [exact Hp|]. exact HQ.
      * apply wp_ret. apply HQ. exact Hp.
    + apply wp_ret. apply HQ. exact Hp.
Qed.

Lemma wp_update_ip self kw (s : store) i (Q : result unit -> store -> Prop) :
  s !! self = Some i ->
  (forall s',
     match before_solve kw (params i) with
     | Ok p1 =>
         match ng p1 with
         | Some g =>
             forall cp,
               match find_m_min_value p1 g with
               | Ok m =>
                   tracks s self (fresh (dom s))
                     {| params := with_hod_params {["M_min" := m]} p1;
                        memo := ∅ |} cp s' ->
                   Q (Ok tt) s'
               | Raise e =>
                   tracks s self (fresh (dom s))
                     {| params := p1; memo := ∅ |} cp s' ->
                   Q (Raise e) s'
               end
         | None => in_place s self p1 ∅ s' -> Q (Ok tt) s'
         end
     | Raise e =>
         (exists q, in_place s self q ∅ s'
                    /\ ng q = ng (ng_after kw (params i))) ->
         Q (Raise e) s'
     end) ->
  wp (update self kw) s Q.
Proof.
  intros Hs HQ. unfold update, update_with, before_solve in *.
  pose proof (in_place_empty s self i Hs) as Hp.
  apply wp_bind. eapply wp_pop_ng_ip; [exact Hp|].
  intros s1 H1. cbn beta iota.
  apply wp_bind. eapply wp_super_update_ip; [exact H1|]. intros s2.
  destruct (apply_kwargs kw (ng_after kw (params i))) as [p1|e];
    [|apply HQ].
  intros H2. cbn beta iota.
  apply wp_bind.
  eapply wp_get_params_at; [eapply in_place_obj_at; exact H2|].
  cbn beta iota.
  destruct (ng p1) as [g|].
  - destruct H2 as [(m2 & H2 & _) Hf2 Hd2].
    assert (Hin : self ∈ dom s) by (apply elem_of_dom; eauto).
    apply wp_bind. unfold find_m_min, recursion_limit.
    change 1000%nat with (S 999).
    eapply wp_find_m_min; [exact H2|]. intros s3 cp' Htr.
    rewrite Hd2 in Htr.
    destruct Htr as [Hne (m3 & Hself & _) (mc & Hc) Hf3 Hd3].
    cbn [params memo] in *.
    destruct (find_m_min_value p1 g) as [m|e] eqn:Hv.
    + unfold wp, setattr, modify. rewrite Hself. cbn [fst snd].
      apply (HQ _ cp'). constructor; cbn [params memo].
      * exact Hne.
      * eexists. split; [apply lookup_insert_eq|set_solver].
      * exists mc. rewrite lookup_insert_ne by congruence. exact Hc.
      * intros l Hl Hlc. rewrite lookup_insert_ne by congruence.
        rewrite Hf3 by assumption. apply Hf2. exact Hl.
      * rewrite dom_insert_L, Hd3, Hd2. set_solver.
    + apply (HQ _ cp'). constructor; cbn [params memo].
      * exact Hne.
      * eexists. split; [exact Hself|set_solver].
      * exists mc. exact Hc.
      * intros l Hl Hlc. rewrite Hf3 by assumption. apply Hf2. exact Hl.
      * rewrite Hd3, Hd2. reflexivity.
  - apply wp_ret. apply HQ. exact H2.
Qed.

Lemma bind_ext {A B} (m : Py A) (k1 k2 : A -> Py B) (s : store) :
  (forall a, (m s).1 = Ok a -> k1 a (m s).2 = k2 a (m s).2) ->
  bind m k1 s = bind m k2 s.
Proof.
  intros H. unfold bind. destruct (m s) as [[a|e] s']; cbn [fst snd] in *.
  - apply H. reflexivity.
  - reflexivity.
Qed.

End UpdateFrame.

(** [update] works on the caller's object alone: every other object that
    existed before the call is found unchanged after it, whether the call
    returns or raises; the only location that can be new afterwards is
    the one of the solver's working copy; the caller's object is still
    there. *)
Theorem update_leaves_other_objects {E : Externals}
    (s : store) (self : loc) (i : instance) (kw : kwargs) :
  s !! self = Some i ->
  let s' := (update self kw s).2 in
  (forall l i', l <> self -> s !! l = Some i' -> s' !! l = Some i')
  /\ (forall l, l ∈ dom s' -> l ∈ dom s \/ l = fresh (dom s))
  /\ exists q, obj_at s' self q.
Proof.
  intros Hs.
  apply (wp_update_ip self kw s i
    (fun _ s' =>
       (forall l i', l <> self -> s !! l = Some i' -> s' !! l = Some i')
       /\ (forall l, l ∈ dom s' -> l ∈ dom s \/ l = fresh (dom s))
       /\ exists q, obj_at s' self q) Hs).
  assert (Hip : forall q s', in_place s self q ∅ s' ->
            (forall l i', l <> self -> s !! l = Some i' -> s' !! l = Some i')
            /\ (forall l, l ∈ dom s' -> l ∈ dom s \/ l = fresh (dom s))
            /\ exists q, obj_at s' self q).
  { intros q s' [(m & Hm & _) Hf Hd]. split; [|split].
    - intros l i' Hl Hi. rewrite Hf by exact Hl. exact Hi.
    - intros l Hl. left. rewrite <- Hd. exact Hl.
    - exists q, m. exact Hm. }
  assert (Htr : forall i1 cp s', tracks s self (fresh (dom s)) i1 cp s' ->
            (forall l i', l <> self -> s !! l = Some i' -> s' !! l = Some i')
            /\ (forall l, l ∈ dom s' -> l ∈ dom s \/ l = fresh (dom s))
            /\ exists q, obj_at s' self q).
  { intros i1 cp s' [Hne (m & Hm & _) _ Hf Hd]. split; [|split].
    - intros l i' Hl Hi. rewrite Hf; [exact Hi|exact Hl|].
      intros ->. pose proof (is_fresh (dom s)) as Hfr. apply Hfr.
      apply elem_of_dom. eauto.
    - intros l Hl. rewrite Hd in Hl. set_solver.
    - eexists. exists m. exact Hm. }
  intros s'. destruct (before_solve kw (params i)) as [p1|e].
  - destruct (ng p1) as [g|]; [|apply Hip].
    intros cp. destruct (find_m_min_value p1 g); apply Htr.
  - intros (q & Hq & _). eapply Hip. exact Hq.
Qed.

Lemma update_leaves_other_objects_witness :
  exists q, obj_at (update 1%positive Toy.kw_ng_only
                      (Toy.store0 false None)).2 1%positive q.
Proof.
  destruct (update_leaves_other_objects (Toy.store0 false None) 1%positive
              (Toy.object0 false None) Toy.kw_ng_only eq_refl)
    as (_ & _ & H).
  exact H.
Defined.

(** [update] is not atomic with respect to the solver: when the keywords
    are accepted and leave a target density [g], but the solver raises
    (for instance [NGException]), [update] raises the same exception and
    the object keeps the parameters assigned so far.  It then holds the
    target [g], reports it as its mean galaxy density, and its occupation
    parameters have not been solved for. *)
Theorem update_failed_solve_keeps_ng {E : Externals}
    (s : store) (self : loc) (i : instance) (kw : kwargs)
    (p1 : HaloModel) (g : R) (e : exn) :
  s !! self = Some i ->
  before_solve kw (params i) = Ok p1 ->
  ng p1 = Some g ->
  find_m_min_value p1 g = Raise e ->
  (update self kw s).1 = Raise e
  /\ obj_at (update self kw s).2 self p1
  /\ mean_gal_den p1 = Ok g.
Proof.
  intros Hs Hb Hg Hv.
  assert (Hrun : (update self kw s).1 = Raise e
                 /\ obj_at (update self kw s).2 self p1).
  { apply (wp_update_ip self kw s i
             (fun r s' => r = Raise e /\ obj_at s' self p1) Hs).
    intros s'. rewrite Hb, Hg. intros cp. rewrite Hv.
    intros [_ (m & Hm & _) _ _ _]. split; [reflexivity|].
    exists m. exact Hm. }
  destruct Hrun as [Hr Ho]. split; [exact Hr|]. split; [exact Ho|].
  unfold mean_gal_den. rewrite Hg. reflexivity.
Qed.

Lemma update_failed_solve_keeps_ng_witness :
  (update 1%positive Toy.kw_ng_too_high (Toy.store0 true None)).1
  = Raise (NGException
             (0 + (ln Toy.m1 - ln Toy.m0)
                  * (Toy.m0 * / Toy.m0 * 1 + Toy.m1 * / Toy.m1 * 1) / 2))
  /\ obj_at (update 1%positive Toy.kw_ng_too_high (Toy.store0 true None)).2
       1%positive (Toy.params0 true (Some 10))
  /\ mean_gal_den (Toy.params0 true (Some 10)) = Ok 10.
Proof.
  apply (update_failed_solve_keeps_ng (Toy.store0 true None) 1%positive
           (Toy.object0 true None) Toy.kw_ng_too_high
           (Toy.params0 true (Some 10)) 10).
  - reflexivity.
  - reflexivity.
  - reflexivity.
  - apply find_m_min_value_NGException. split.
    + apply toy_max_density_sharp.
    + rewrite toy_sharp_total. pose proof ln_10_lt_10. lra.
Defined.

(** A keyword rejected by its setter ends [update] before the solver: the
    exception is the setter's, no object is created, every other object
    is unchanged.  The target density popped at line 79 (or cleared at
    line 85) has already been stored on the object by then. *)
Theorem update_rejected_keyword {E : Externals}
    (s : store) (self : loc) (i : instance) (kw : kwargs) (e : exn) :
  s !! self = Some i ->
  before_solve kw (params i) = Raise e ->
  (update self kw s).1 = Raise e
  /\ dom (update self kw s).2 = dom s
  /\ (forall l, l <> self -> (update self kw s).2 !! l = s !! l)
  /\ exists q, obj_at (update self kw s).2 self q
               /\ ng q = ng (ng_after kw (params i)).
Proof.
  intros Hs Hb.
  apply (wp_update_ip self kw s i
    (fun r s' => r = Raise e
       /\ dom s' = dom s
       /\ (forall l, l <> self -> s' !! l = s !! l)
       /\ exists q, obj_at s' self q
                    /\ ng q = ng (ng_after kw (params i))) Hs).
  intros s'. rewrite Hb. intros (q & Hq & Hg).
  split; [reflexivity|]. destruct Hq as [(m & Hm & _) Hf Hd].
  split; [exact Hd|]. split; [exact Hf|].
  exists q. split; [exists m; exact Hm|exact Hg].
Qed.

Lemma update_rejected_keyword_witness :
  (update 1%positive Toy.kw_ng_bad_exclusion (Toy.store0 false None)).1
  = Raise (ValueError "halo_exclusion not acceptable: " (PyStr "cube"))
  /\ exists q,
       obj_at (update 1%positive Toy.kw_ng_bad_exclusion
                 (Toy.store0 false None)).2 1%positive q
       /\ ng q = Some (1 / 1000).
Proof.
  destruct (update_rejected_keyword (Toy.store0 false None) 1%positive
              (Toy.object0 false None) Toy.kw_ng_bad_exclusion
              (ValueError "halo_exclusion not acceptable: " (PyStr "cube"))
              eq_refl eq_refl)
    as (Hr & _ & _ & Hq).
  split; [exact Hr|exact Hq].
Defined.

(** The solver runs only for a target density: when the keywords leave
    [ng] unset (no [ng] on the object and none passed, [ng=None], or an
    explicit [M_min] in [hod_params]), [update] never calls
    [_find_m_min], whatever the other keywords are, and creates no
    object.  This is what ends the mutual recursion: the solver's own
    calls of [update] pass [M_min]. *)
Theorem update_without_target_skips_solver {E : Externals}
    (solver1 solver2 : loc -> R -> Py R)
    (s : store) (self : loc) (i : instance) (kw : kwargs) :
  s !! self = Some i ->
  ng (ng_after kw (params i)) = None ->
  update_with solver1 self kw s = update_with solver2 self kw s
  /\ dom (update self kw s).2 = dom s.
Proof.
  intros Hs Hn. split.
  - pose proof (in_place_empty s self i Hs) as Hp.
    unfold update_with.
    match goal with
    | |- bind ?pop _ _ = _ =>
        assert (H : wp pop s (fun _ s1 =>
                      wp (super_update self kw) s1 (fun r2 s2 =>
                        r2 = Ok tt ->
                        exists q, obj_at s2 self q /\ ng q = None)))
    end.
    { eapply wp_pop_ng_ip; [exact Hp|]. intros s1 H1.
      eapply wp_super_update_at; [eapply in_place_obj_at; exact H1|].
      intros s2.
      destruct (apply_kwargs kw (ng_after kw (params i))) as [q|e] eqn:Hk;
        [|discriminate].
      intros Hq _. exists q. split; [exact Hq|].
      rewrite (apply_kwargs_ng _ _ _ Hk). exact Hn. }
    unfold wp in H. cbv beta in H.
    apply bind_ext. intros [] _. apply bind_ext. intros [] HB.
    destruct (H HB) as (q & [m Hm] & Hq).
    unfold bind, get_params. rewrite Hm. cbn [params]. rewrite Hq.
    reflexivity.
  - apply (wp_update_ip self kw s i (fun _ s' => dom s' = dom s) Hs).
    intros s'.
    destruct (before_solve kw (params i)) as [p1|e] eqn:Hb.
    + unfold before_solve in Hb. apply apply_kwargs_ng in Hb.
      rewrite Hb, Hn. intros [_ _ Hd]. exact Hd.
    + intros (q & [_ _ Hd] & _). exact Hd.
Qed.

Lemma update_without_target_skips_solver_witness :
  update_with find_m_min 1%positive (kw_hod {["M_min" := 13]})
    (Toy.store0 false (Some 1))
  = update_with (fun _ _ => raise IndexError) 1%positive
      (kw_hod {["M_min" := 13]}) (Toy.store0 false (Some 1)).
Proof.
  apply (update_without_target_skips_solver find_m_min
           (fun _ _ => raise IndexError) (Toy.store0 false (Some 1))
           1%positive (Toy.object0 false (Some 1))
           (kw_hod {["M_min" := 13]})).
  - reflexivity.
  - reflexivity.
Defined.

(** ** Construction *)

Lemma init_with_ng_solves_M_min_witness :
  exists l p m i',
    (__init__ Toy.args0 ∅).1 = Ok l
    /\ init_params Toy.args0 = Ok p
    /\ find_m_min_value p (1 / 1000) = Ok m
    /\ (__init__ Toy.args0 ∅).2 !! l = Some i'
    /\ ng (params i') = Some (1 / 1000)
    /\ hod_params (params i') = {["M_min" := m]}.
Proof.
  assert (Hrun : exists l, (__init__ Toy.args0 ∅).1 = Ok l).
  { apply (wp_init Toy.args0 ∅ (fun r _ => exists l, r = Ok l)).
    intros l s'.
    assert (Hp : exists p, init_params Toy.args0 = Ok p
                           /\ hod_model p = Toy.hod0 false)
      by (eexists; split; reflexivity).
    destruct Hp as (p & -> & Hh). cbn [a_ng Toy.args0].
    rewrite (toy_find_m_min_value_smooth p Hh). eauto. }
  destruct Hrun as [l Hl]. exists l.
  destruct (init_with_ng_solves_M_min Toy.args0 ∅
              (__init__ Toy.args0 ∅).2 l (1 / 1000) eq_refl)
    as (p & m & i' & H1 & H2 & H3 & H4 & H5).
  - destruct (__init__ Toy.args0 ∅) as [r0 s0]. cbn [fst snd] in *.
    rewrite Hl. reflexivity.
  - exists p, m, i'. repeat split; assumption.
Defined.
